(** * Heimdal mech-glue: [gss_import_name] and the exported-name token parser

    A shallow embedding of [lib/gssapi/mech/gss_import_name.c].

    Conventions of the embedding.
    - An [unsigned char] is a [Z] in [0, 256); every load reduces modulo 256.
    - [size_t] is the 64-bit unsigned type of an LP64 platform; [OM_uint32]
      (the type of [mech_oid.length]) is the 32-bit unsigned type of RFC 2744;
      [int] is 32-bit two's complement.  Unsigned arithmetic wraps; the one
      [int] expression that can leave the range of [int], [p[0] << 24], is
      given the wrapped two's-complement value every mainstream compiler
      produces.
    - The pointer [p] is the offset from [input_name_buffer->value].  The
      buffer owns offsets [0 .. length); whatever the process has in memory
      after it is the function [beyond].  Every load is recorded, so that
      whether a load stays inside the buffer is a property of the run. *)

From Stdlib Require Import ZArith List Bool Lia.
Import ListNotations.
Local Open Scope Z_scope.

(** ** Machine integers *)

Definition OM_uint32 := Z.

Definition to_size_t (x : Z) : Z := x mod 2 ^ 64.
Definition to_uint32 (x : Z) : Z := x mod 2 ^ 32.
Definition to_uchar (x : Z) : Z := x mod 2 ^ 8.

(** Conversion of an out-of-range value to [int]: two's-complement wrap. *)
Definition to_int (x : Z) : Z := (x + 2 ^ 31) mod 2 ^ 32 - 2 ^ 31.

(** ** Major status codes

    The values of [gssapi.h] (RFC 2744, section 3.9.1); the header is not part
    of the translated file. *)

Definition GSS_S_COMPLETE : OM_uint32 := 0.
Definition GSS_S_BAD_MECH : OM_uint32 := Z.shiftl 1 16.
Definition GSS_S_BAD_NAME : OM_uint32 := Z.shiftl 2 16.
Definition GSS_S_FAILURE : OM_uint32 := Z.shiftl 13 16.
Definition GSS_S_NAME_NOT_MN : OM_uint32 := Z.shiftl 18 16.
Definition GSS_S_CALL_INACCESSIBLE_READ : OM_uint32 := Z.shiftl 1 24.
Definition GSS_S_CALL_INACCESSIBLE_WRITE : OM_uint32 := Z.shiftl 2 24.

Definition GSS_ERROR (x : OM_uint32) : bool :=
  negb (Z.land x (Z.lor (Z.shiftl 255 24) (Z.shiftl 255 16)) =? 0).

Definition ENOMEM : OM_uint32 := 12.

(** ** Buffers and memory *)

Record gss_buffer_desc := {
  value : list Z;          (* the [length] bytes at [value] *)
  beyond : Z -> Z          (* memory outside the buffer, by offset *)
}.

Definition length (b : gss_buffer_desc) : Z := Z.of_nat (List.length (value b)).

(** The byte a load from [value + off] yields. *)
Definition load (b : gss_buffer_desc) (off : Z) : Z :=
  to_uchar (if (0 <=? off) && (off <? length b)
            then nth (Z.to_nat off) (value b) 0
            else beyond b off).

(** [n] bytes starting at offset [off], as a view into the token. *)
Definition view (b : gss_buffer_desc) (off : Z) (n : Z) : list Z :=
  map (fun i => load b (off + Z.of_nat i)) (seq 0 (Z.to_nat n)).

(** ** The parser's local variables, and a small monad over them *)

Record locals := {
  p : Z;                   (* cursor, as an offset into the token *)
  len : Z;                 (* [size_t len] *)
  t : Z;                   (* [size_t t] *)
  loads : list Z           (* offsets loaded so far, most recent first *)
}.

Inductive step (A : Type) :=
| Val (a : A)
| Return (major_status : OM_uint32).
Arguments Val {A} a.
Arguments Return {A} major_status.

Definition M (A : Type) := gss_buffer_desc -> locals -> locals * step A.

Definition ret {A} (a : A) : M A := fun _ s => (s, Val a).
Definition bind {A B} (m : M A) (k : A -> M B) : M B :=
  fun b s => match m b s with
             | (s', Val a) => k a b s'
             | (s', Return st) => (s', Return st)
             end.
Definition fail {A} (st : OM_uint32) : M A := fun _ s => (s, Return st).

Notation "x <- m ;; k" := (bind m (fun x => k))
  (at level 61, m at next level, right associativity).
Notation "m ;;; k" := (bind m (fun _ => k))
  (at level 61, right associativity).

(** [p[k]] *)
Definition deref (k : Z) : M Z :=
  fun b s => ({| p := p s; len := len s; t := t s;
                 loads := (p s + k) :: loads s |},
              Val (load b (p s + k))).
(** [p += k] *)
Definition p_add (k : Z) : M unit :=
  fun _ s => ({| p := p s + k; len := len s; t := t s; loads := loads s |},
              Val tt).
(** [len -= k] *)
Definition len_sub (k : Z) : M unit :=
  fun _ s => ({| p := p s; len := to_size_t (len s - k); t := t s;
                 loads := loads s |}, Val tt).
(** [t = v] *)
Definition t_set (v : Z) : M unit :=
  fun _ s => ({| p := p s; len := len s; t := to_size_t v;
                 loads := loads s |}, Val tt).
Definition get_p : M Z := fun _ s => (s, Val (p s)).
Definition get_len : M Z := fun _ s => (s, Val (len s)).
Definition get_t : M Z := fun _ s => (s, Val (t s)).
(** [if (c) return st;] *)
Definition return_if (c : bool) (st : OM_uint32) : M unit :=
  if c then fail st else ret tt.

(** ** The exported-name token parser: lines 38-141 of the source *)

(** Lines 53-67: TOK_ID.  Yields [composite]. *)
Definition tok_id : M bool :=
  l <- get_len ;;
  return_if (l <? 2) GSS_S_BAD_NAME ;;;
  b0 <- deref 0 ;;
  return_if (negb (b0 =? 4)) GSS_S_BAD_NAME ;;;
  b1 <- deref 1 ;;
  composite <- (if b1 =? 1 then ret false
                else if b1 =? 2 then ret true
                else fail GSS_S_BAD_NAME) ;;
  p_add 2 ;;;
  len_sub 2 ;;;
  ret composite.

(** Lines 112-117: [while (digits--) { ... }], with [mech_oid.length] as the
    accumulator. *)
Fixpoint der_length_loop (digits : nat) (mech_oid_length : Z) : M Z :=
  match digits with
  | O => ret mech_oid_length
  | S digits' =>
      b0 <- deref 0 ;;
      p_add 1 ;;;
      len_sub 1 ;;;
      t' <- get_t ;;
      t_set (t' - 1) ;;;
      der_length_loop digits'
        (to_uint32 (Z.lor (Z.shiftl mech_oid_length 8) b0))
  end.

(** Lines 91-125: MECH_OID_LEN and the DER header of the mechanism OID.
    Yields [mech_oid.length]. *)
Definition mech_oid_field : M Z :=
  l <- get_len ;;
  return_if (l <? 2) GSS_S_BAD_NAME ;;;
  b0 <- deref 0 ;;
  b1 <- deref 1 ;;
  t_set (Z.shiftl b0 8 + b1) ;;;
  p_add 2 ;;;
  len_sub 2 ;;;
  tag <- deref 0 ;;
  return_if (negb (tag =? 6)) GSS_S_BAD_NAME ;;;
  p_add 1 ;;;
  len_sub 1 ;;;
  t1 <- get_t ;;
  t_set (t1 - 1) ;;;
  lb <- deref 0 ;;
  mech_oid_length <-
    (if negb (Z.land lb 128 =? 0) then
       digits <- deref 0 ;;
       p_add 1 ;;;
       len_sub 1 ;;;
       t2 <- get_t ;;
       t_set (t2 - 1) ;;;
       der_length_loop (Z.to_nat digits) 0
     else
       l0 <- deref 0 ;;
       p_add 1 ;;;
       len_sub 1 ;;;
       t2 <- get_t ;;
       t_set (t2 - 1) ;;;
       ret l0) ;;
  t3 <- get_t ;;
  return_if (negb (mech_oid_length =? t3)) GSS_S_BAD_NAME ;;;
  ret mech_oid_length.

(** Lines 129-141: NAME_LEN, enforced for non-composite tokens only. *)
Definition name_len (composite : bool) : M unit :=
  if negb composite then
    l <- get_len ;;
    t0 <- get_t ;;
    return_if (l <? to_size_t (t0 + 4)) GSS_S_BAD_NAME ;;;
    p_add t0 ;;;
    len_sub t0 ;;;
    b0 <- deref 0 ;;
    b1 <- deref 1 ;;
    b2 <- deref 2 ;;
    b3 <- deref 3 ;;
    t_set (to_int (Z.lor (Z.lor (Z.lor (Z.shiftl b0 24) (Z.shiftl b1 16))
                                (Z.shiftl b2 8)) b3)) ;;;
    p_add 4 ;;;
    len_sub 4 ;;;
    l' <- get_len ;;
    t' <- get_t ;;
    return_if (negb (l' =? t')) GSS_S_BAD_NAME
  else ret tt.

(** What the parser has established when control reaches line 143. *)
Record export_name_token := {
  composite : bool;
  mech_oid_length : Z;     (* [mech_oid.length] *)
  mech_oid_elements : Z;   (* [mech_oid.elements], as an offset *)
  rest : Z;                (* [p] *)
  rest_length : Z          (* [len] *)
}.

Definition parse_export_name : M export_name_token :=
  c <- tok_id ;;
  n <- mech_oid_field ;;
  e <- get_p ;;
  name_len c ;;;
  q <- get_p ;;
  l <- get_len ;;
  ret {| composite := c; mech_oid_length := n; mech_oid_elements := e;
         rest := q; rest_length := l |}.

(** Lines 38-40: the locals on entry ([t] is not yet initialised; it is
    assigned at line 93 before its first use). *)
Definition entry (b : gss_buffer_desc) : locals :=
  {| p := 0; len := to_size_t (length b); t := 0; loads := [] |}.

(** The locals at line 68, once a TOK_ID has been accepted. *)
Definition after_tok_id (b : gss_buffer_desc) : locals :=
  {| p := 2; len := length b - 2; t := 0; loads := [1; 0] |}.

Definition run_parser (b : gss_buffer_desc) : locals * step export_name_token :=
  parse_export_name b (entry b).

(** The mechanism OID content and the payload a parsed token denotes. *)
Definition mech_oid_of (b : gss_buffer_desc) (k : export_name_token) : list Z :=
  view b (mech_oid_elements k) (mech_oid_length k).
Definition payload_of (b : gss_buffer_desc) (k : export_name_token) : list Z :=
  view b (rest k) (rest_length k).

(** The four bytes at [off], read as a big-endian 32-bit number. *)
Definition be32_at (b : gss_buffer_desc) (off : Z) : Z :=
  load b off * 2 ^ 24 + load b (off + 1) * 2 ^ 16
  + load b (off + 2) * 2 ^ 8 + load b (off + 3).

(** A load is inside the buffer when its offset is below [length]. *)
Definition in_bounds (b : gss_buffer_desc) (off : Z) : bool :=
  (0 <=? off) && (off <? length b).

(** [m] forgets no load that is already on record. *)
Definition keeps_loads {A} (m : M A) : Prop :=
  forall b s x, In x (loads s) -> In x (loads (fst (m b s))).

(** ** Sample tokens *)

(** The exported name "foo" of the Kerberos mechanism, 1.2.840.113554.1.2.2. *)
Definition krb5_oid : list Z := [42; 134; 72; 134; 247; 18; 1; 2; 2].
Definition krb5_token : list Z :=
  [4; 1; 0; 11; 6; 9] ++ krb5_oid ++ [0; 0; 0; 3; 102; 111; 111].

(** The same name with the OID length in the long form, one continuation
    byte: [81 09] in place of [09]. *)
Definition long_form_token : list Z :=
  [4; 1; 0; 12; 6; 129; 9] ++ krb5_oid ++ [0; 0; 0; 3; 102; 111; 111].

(** A token that ends after MECH_OID_LEN. *)
Definition short_token : list Z := [4; 1; 0; 11].

(** A four-byte composite token, and memory after it that happens to hold
    an OID header. *)
Definition short_composite_token : list Z := [4; 2; 0; 3].
Definition oid_header_after (off : Z) : Z :=
  if off =? 4 then 6 else if off =? 5 then 1 else 0.

(** A four-byte plain token, and memory after it that happens to hold an OID
    header, one byte of OID and the four bytes FF FF FF F9. *)
Definition short_plain_token : list Z := [4; 1; 0; 3].
Definition plain_name_after (off : Z) : Z :=
  if off =? 4 then 6 else if off =? 5 then 1
  else if (7 <=? off) && (off <=? 9) then 255
  else if off =? 10 then 249 else 0.

(** A composite token: NAME_LEN says 3, five bytes follow it. *)
Definition composite_token : list Z :=
  [4; 2; 0; 11; 6; 9] ++ krb5_oid ++ [0; 0; 0; 3; 102; 111; 111; 65; 66].

Definition zeroes (off : Z) : Z := 0.

(** ** Object identifiers, names and mechanisms *)

Definition gss_OID_desc := list Z.            (* the content octets *)
Definition gss_OID := option gss_OID_desc.    (* [None] is [GSS_C_NO_OID] *)
Definition gss_name_t := Z.                   (* a mechanism's opaque name *)

(** 1.3.6.1.5.6.4 (RFC 2743) and 1.3.6.1.5.6.6 (RFC 6680); declared outside
    the translated file. *)
Definition GSS_C_NT_EXPORT_NAME : gss_OID := Some [43; 6; 1; 5; 6; 4].
Definition GSS_C_NT_COMPOSITE_EXPORT : gss_OID := Some [43; 6; 1; 5; 6; 6].

Definition oid_eqb (x y : gss_OID_desc) : bool :=
  if list_eq_dec Z.eq_dec x y then true else false.

(** Modelled from the spec: [gss_oid_equal], which lives in another file; an
    OID is "compared by exact byte equality", and the null OID equals
    nothing. *)
Definition gss_oid_equal (x y : gss_OID) : bool :=
  match x, y with
  | Some a, Some c => oid_eqb a c
  | _, _ => false
  end.

(** [gssapi_mech_interface_desc], restricted to the members the file uses.
    A null [gm_import_name] is [None]; a call yields the major status, the
    minor status and the name stored through the last argument.
    [gm_release_name] yields the minor status it stores. *)
Record gssapi_mech_interface_desc := {
  gm_mech_oid : gss_OID_desc;
  gm_flags : Z;
  gm_import_name :
    option (list Z -> gss_OID -> OM_uint32 * OM_uint32 * gss_name_t);
  gm_release_name : gss_name_t -> OM_uint32
}.

(** [struct _gss_mech_switch]; [gm_switch_oid] is its own [gm_mech_oid]
    member, renamed because the interface has a member of that name. *)
Record _gss_mech_switch := {
  gm_switch_oid : gss_OID_desc;
  gm_name_types : list gss_OID_desc;
  gm_mech : gssapi_mech_interface_desc
}.

Record _gss_mechanism_name := {
  gmn_mech : gssapi_mech_interface_desc;
  gmn_mech_oid : gss_OID_desc;
  gmn_name : gss_name_t
}.

(** [struct _gss_name]; an unset [gn_value] (null pointer, length 0) is
    [None]. *)
Record _gss_name := {
  gn_type : gss_OID;
  gn_value : option (list Z);
  gn_mn : list _gss_mechanism_name
}.

(** The bytes [&name->gn_value] designates. *)
Definition bytes_of (name : _gss_name) : list Z :=
  match gn_value name with
  | Some v => v
  | None => []
  end.

(** ** The world outside the function *)

Inductive resource :=
| res_name                                   (* a [struct _gss_name] *)
| res_mn                                     (* a [struct _gss_mechanism_name] *)
| res_value                                  (* the bytes of a [gn_value] *)
| res_type                                   (* an interned [gn_type] *)
| res_mech_name (mech : gss_OID_desc) (n : gss_name_t).

Inductive call :=
| import_name_call (mech : gss_OID_desc) (input : list Z) (name_type : gss_OID)
| release_name_call (mech : gss_OID_desc) (n : gss_name_t)
| mg_error_call (mech : gss_OID_desc) (minor : OM_uint32).

(** [heap]: whether each coming allocation succeeds, in order (all of them
    once the list is used up); [live]: what is allocated and not yet freed;
    [calls]: the calls made into mechanisms and the error reporter, oldest
    first. *)
Record world := {
  heap : list bool;
  live : list resource;
  calls : list call
}.

Definition resource_eqb (x y : resource) : bool :=
  match x, y with
  | res_name, res_name | res_mn, res_mn
  | res_value, res_value | res_type, res_type => true
  | res_mech_name m n, res_mech_name m' n' => oid_eqb m m' && (n =? n')
  | _, _ => false
  end.

Fixpoint remove_first (r : resource) (l : list resource) : list resource :=
  match l with
  | [] => []
  | x :: l' => if resource_eqb x r then l' else x :: remove_first r l'
  end.

(** [malloc]/[calloc] of an [r]. *)
Definition alloc (r : resource) (w : world) : bool * world :=
  match heap w with
  | [] => (true, {| heap := []; live := r :: live w; calls := calls w |})
  | ok :: h =>
      (ok, {| heap := h; live := if ok then r :: live w else live w;
              calls := calls w |})
  end.

(** [free] of an [r]. *)
Definition free (r : resource) (w : world) : world :=
  {| heap := heap w; live := remove_first r (live w); calls := calls w |}.

Definition called (c : call) (w : world) : world :=
  {| heap := heap w; live := live w; calls := calls w ++ [c] |}.

(** A mechanism handing out a name it allocated. *)
Definition mech_gives (m : gssapi_mech_interface_desc) (n : gss_name_t)
    (w : world) : world :=
  {| heap := heap w; live := res_mech_name (gm_mech_oid m) n :: live w;
     calls := calls w |}.

(** [m->gm_release_name(&minor, &n)]. *)
Definition mech_releases (m : gssapi_mech_interface_desc) (n : gss_name_t)
    (w : world) : world :=
  free (res_mech_name (gm_mech_oid m) n)
       (called (release_name_call (gm_mech_oid m) n) w).

(** [_gss_mg_error(m, minor)]: reports the mechanism's diagnostic. *)
Definition _gss_mg_error (m : gssapi_mech_interface_desc) (minor : OM_uint32)
    (w : world) : world :=
  called (mg_error_call (gm_mech_oid m) minor) w.

(** What a call leaves behind: the status it returns, [*minor_status]
    ([None] when never stored to), [*output_name] ([None] is the null name)
    and the world. *)
Record result := {
  major_status : OM_uint32;
  minor_status : option OM_uint32;
  output_name : option _gss_name;
  after : world
}.

(** ** Collaborators that live in other files of the library *)

(** Modelled from the spec: [_gss_create_name], defined in another file.
    "Allocate an empty GenericName"; given a mechanism's name it "wrap[s] the
    returned opaque name as a singleton GenericName".  It yields null, with
    nothing left allocated, when an allocation fails. *)
Definition _gss_create_name
    (new_mn : option (gss_name_t * gssapi_mech_interface_desc)) (w : world)
  : option _gss_name * world :=
  match alloc res_name w with
  | (false, w1) => (None, w1)
  | (true, w1) =>
      match new_mn with
      | None => (Some {| gn_type := None; gn_value := None; gn_mn := [] |}, w1)
      | Some (n, m) =>
          match alloc res_mn w1 with
          | (false, w2) => (None, free res_name w2)
          | (true, w2) =>
              (Some {| gn_type := None; gn_value := None;
                       gn_mn := [{| gmn_mech := m;
                                    gmn_mech_oid := gm_mech_oid m;
                                    gmn_name := n |}] |}, w2)
          end
      end
  end.

(** Modelled from the spec: [_gss_intern_oid], the OID intern store:
    "intern(oid) -> owned canonical OID | Failure". *)
Definition _gss_intern_oid (oid : gss_OID_desc) (w : world)
  : OM_uint32 * OM_uint32 * gss_OID * world :=
  match alloc res_type w with
  | (true, w1) => (GSS_S_COMPLETE, 0, Some oid, w1)
  | (false, w1) => (GSS_S_FAILURE, ENOMEM, None, w1)
  end.

(** Modelled from the spec: [_gss_copy_buffer], the buffer copy utility:
    "copy(bytes) -> owned bytes | AllocationFailure". *)
Definition _gss_copy_buffer (bytes : list Z) (w : world)
  : OM_uint32 * OM_uint32 * option (list Z) * world :=
  match alloc res_value w with
  | (true, w1) => (GSS_S_COMPLETE, 0, Some bytes, w1)
  | (false, w1) => (GSS_S_FAILURE, ENOMEM, None, w1)
  end.

(** Modelled from the spec: [gss_test_oid_set_member], membership of an OID
    in a mechanism's "supported-name-type set". *)
Definition gss_test_oid_set_member (member : gss_OID_desc)
    (set : list gss_OID_desc) : OM_uint32 * OM_uint32 * Z :=
  (GSS_S_COMPLETE, 0, if existsb (oid_eqb member) set then 1 else 0).

(** Modelled from the spec: the first step of [gss_release_name], defined in
    another file: "for each MechanismName in the sequence, invoke its owning
    mechanism's release operation on its handle, remove the node". *)
Fixpoint release_mechanism_names (mns : list _gss_mechanism_name) (w : world)
  : world :=
  match mns with
  | [] => w
  | mn :: mns' =>
      release_mechanism_names mns'
        (free res_mn (mech_releases (gmn_mech mn) (gmn_name mn) w))
  end.

(** Modelled from the spec: [gss_release_name], defined in another file.
    After the mechanism names, "free the owned value buffer and interned
    type; then free the GenericName itself". *)
Definition gss_release_name (name : _gss_name) (w : world) : world :=
  let w1 := release_mechanism_names (gn_mn name) w in
  let w2 := match gn_value name with Some _ => free res_value w1 | None => w1 end in
  let w3 := match gn_type name with Some _ => free res_type w2 | None => w2 end in
  free res_name w3.

Section MechGlue.

(** The process-wide list of mechanisms, in registration order, as
    [_gss_load_mech] leaves it, and the flag bit of [gm_flags] whose value is
    defined in a header outside the translated file. *)
Variable _gss_mechs : list _gss_mech_switch.
Variable GM_USE_MG_NAME : Z.

(** Modelled from the spec: [__gss_get_mechanism], the registry's
    "lookup(oid) -> MechanismDescriptor | none". *)
Definition __gss_get_mechanism (mech : gss_OID_desc)
  : option gssapi_mech_interface_desc :=
  option_map gm_mech
    (find (fun m => oid_eqb (gm_mech_oid (gm_mech m)) mech) _gss_mechs).

(** *** [_gss_import_export_name]: lines 31-170 *)

(** Lines 143-169, with the parser's result in hand. *)
Definition import_parsed (input_name_buffer : gss_buffer_desc)
    (name_type : gss_OID) (k : export_name_token) (w : world) : result :=
  let bad_mech := {| major_status := GSS_S_BAD_MECH; minor_status := Some 0;
                     output_name := None; after := w |} in
  match __gss_get_mechanism (mech_oid_of input_name_buffer k) with
  | None => bad_mech
  | Some m =>
      match gm_import_name m with
      | None => bad_mech
      | Some import =>
          let '(major, minor, new_canonical_name) :=
            import (value input_name_buffer) name_type in
          let w1 := called (import_name_call (gm_mech_oid m)
                              (value input_name_buffer) name_type) w in
          if negb (major =? GSS_S_COMPLETE) then
            {| major_status := major; minor_status := Some minor;
               output_name := None; after := _gss_mg_error m minor w1 |}
          else
            let w2 := mech_gives m new_canonical_name w1 in
            match _gss_create_name (Some (new_canonical_name, m)) w2 with
            | (None, w3) =>
                {| major_status := GSS_S_FAILURE;
                   minor_status :=
                     Some (gm_release_name m new_canonical_name);
                   output_name := None;
                   after := mech_releases m new_canonical_name w3 |}
            | (Some name, w3) =>
                {| major_status := GSS_S_COMPLETE; minor_status := Some 0;
                   output_name := Some name; after := w3 |}
            end
      end
  end.

Definition _gss_import_export_name (input_name_buffer : gss_buffer_desc)
    (name_type : gss_OID) (w : world) : result :=
  match run_parser input_name_buffer with
  | (_, Return st) =>
      {| major_status := st; minor_status := Some 0; output_name := None;
         after := w |}
  | (_, Val k) => import_parsed input_name_buffer name_type k w
  end.

(** *** [gss_import_name]: lines 198-323 *)

(** Where the walk over the mechanisms leaves the function. *)
Inductive walk :=
| walked (name : _gss_name) (minor : OM_uint32) (w : world)
      (* the list is exhausted: on to line 309 *)
| bailed (major minor : OM_uint32) (name : _gss_name) (w : world)
      (* [goto out] *)
| wild.
      (* a call through a null [gm_import_name] *)

(** Lines 265-274: whether the loop body gets past its two [continue]s. *)
Definition eligible (name_type : gss_OID) (m : _gss_mech_switch) : bool :=
  if negb (Z.land (gm_flags (gm_mech m)) GM_USE_MG_NAME =? 0) then false
  else match name_type with
       | None => true
       | Some nt =>
           let '(major, _, present) :=
             gss_test_oid_set_member nt (gm_name_types m) in
           negb (GSS_ERROR major || (present =? 0))
       end.

(** Lines 262-303: [HEIM_TAILQ_FOREACH(m, &_gss_mechs, gm_link) { ... }]. *)
Fixpoint walk_mechs (name_type : gss_OID) (ms : list _gss_mech_switch)
    (name : _gss_name) (minor : OM_uint32) (w : world) : walk :=
  match ms with
  | [] => walked name minor w
  | m :: ms' =>
      if negb (Z.land (gm_flags (gm_mech m)) GM_USE_MG_NAME =? 0) then
        walk_mechs name_type ms' name minor w
      else
        let '(skip, minor1) :=
          match name_type with
          | None => (false, minor)
          | Some nt =>
              let '(major, minor', present) :=
                gss_test_oid_set_member nt (gm_name_types m) in
              (GSS_ERROR major || (present =? 0), minor')
          end in
        if skip then walk_mechs name_type ms' name minor1 w
        else
          match alloc res_mn w with
          | (false, w1) => bailed GSS_S_FAILURE ENOMEM name w1
          | (true, w1) =>
              match gm_import_name (gm_mech m) with
              | None => wild
              | Some import =>
                  let '(major, minor2, gmn) :=
                    import (bytes_of name) (gn_type name) in
                  let w2 := called (import_name_call
                                      (gm_mech_oid (gm_mech m))
                                      (bytes_of name) (gn_type name)) w1 in
                  if negb (major =? GSS_S_COMPLETE) then
                    walk_mechs name_type ms' name minor2
                      (free res_mn (_gss_mg_error (gm_mech m) minor2 w2))
                  else
                    walk_mechs name_type ms'
                      {| gn_type := gn_type name; gn_value := gn_value name;
                         gn_mn := gn_mn name ++
                                  [{| gmn_mech := gm_mech m;
                                      gmn_mech_oid := gm_switch_oid m;
                                      gmn_name := gmn |}] |}
                      minor2 (mech_gives (gm_mech m) gmn w2)
              end
          end
  end.

(** Lines 319-322: the [out:] label. *)
Definition out (major minor : OM_uint32) (name : _gss_name) (w : world)
  : result :=
  {| major_status := major; minor_status := Some minor; output_name := None;
     after := gss_release_name name w |}.

(** Lines 234-322: the path for names that are not exported names. *)
Definition import_generic (input_name_buffer : gss_buffer_desc)
    (name_type : gss_OID) (w : world) : option result :=
  match _gss_create_name None w with
  | (None, w1) =>
      Some {| major_status := GSS_S_FAILURE; minor_status := Some ENOMEM;
              output_name := None; after := w1 |}
  | (Some name, w1) =>
      let '(major, minor, ty, w2) :=
        match name_type with
        | Some nt => _gss_intern_oid nt w1
        | None => (GSS_S_COMPLETE, 0, None, w1)
        end in
      let name1 := {| gn_type := ty; gn_value := gn_value name;
                      gn_mn := gn_mn name |} in
      if negb (major =? 0) then
        Some {| major_status := GSS_S_FAILURE; minor_status := Some minor;
                output_name := None; after := gss_release_name name1 w2 |}
      else
        let '(major', minor', v, w3) :=
          _gss_copy_buffer (value input_name_buffer) w2 in
        let name2 := {| gn_type := ty; gn_value := v; gn_mn := gn_mn name |} in
        if negb (major' =? 0) then Some (out major' minor' name2 w3)
        else
          match walk_mechs name_type _gss_mechs name2 minor' w3 with
          | wild => None
          | bailed major'' minor'' name3 w4 =>
              Some (out major'' minor'' name3 w4)
          | walked name3 minor'' w4 =>
              match gn_mn name3 with
              | [] => Some (out GSS_S_NAME_NOT_MN 0 name3 w4)
              | _ :: _ =>
                  Some {| major_status := GSS_S_COMPLETE;
                          minor_status := Some minor'';
                          output_name := Some name3; after := w4 |}
              end
          end
  end.

(** [input_name_buffer] is [None] for [GSS_C_NO_BUFFER]; [has_output_name]
    tells whether the [output_name] pointer is non-null.  The answer is
    [None] when the run calls through a null function pointer. *)
Definition gss_import_name (input_name_buffer : option gss_buffer_desc)
    (input_name_type : gss_OID) (has_output_name : bool) (w : world)
  : option result :=
  match input_name_buffer with
  | None =>
      Some {| major_status := GSS_S_CALL_INACCESSIBLE_READ;
              minor_status := None; output_name := None; after := w |}
  | Some buffer =>
      if negb has_output_name then
        Some {| major_status := GSS_S_CALL_INACCESSIBLE_WRITE;
                minor_status := None; output_name := None; after := w |}
      else if gss_oid_equal input_name_type GSS_C_NT_EXPORT_NAME
              || gss_oid_equal input_name_type GSS_C_NT_COMPOSITE_EXPORT then
        Some (_gss_import_export_name buffer input_name_type w)
      else import_generic buffer input_name_type w
  end.

End MechGlue.

(** ** Vocabulary for the statements about [gss_import_name] *)

(** Every allocation the run may ask for succeeds. *)
Definition never_fails (w : world) : Prop :=
  Forall (fun ok => ok = true) (heap w).

(** Whether mechanism [m] imports the bytes [v] of type [ty]. *)
Definition imports (v : list Z) (ty : gss_OID) (m : _gss_mech_switch) : bool :=
  match gm_import_name (gm_mech m) with
  | Some import => fst (fst (import v ty)) =? GSS_S_COMPLETE
  | None => false
  end.

(** The mechanism name lines 300-302 build for [m]. *)
Definition mechanism_name_of (v : list Z) (ty : gss_OID) (m : _gss_mech_switch)
  : _gss_mechanism_name :=
  {| gmn_mech := gm_mech m;
     gmn_mech_oid := gm_switch_oid m;
     gmn_name := match gm_import_name (gm_mech m) with
                 | Some import => snd (import v ty)
                 | None => 0
                 end |}.

(** What a mechanism name holds while it is alive: the mechanism's own name
    and the list node. *)
Definition held_by (mn : _gss_mechanism_name) : list resource :=
  [res_mech_name (gm_mech_oid (gmn_mech mn)) (gmn_name mn); res_mn].

Definition is_import_call (c : call) : bool :=
  match c with import_name_call _ _ _ => true | _ => false end.

(** ** Sample mechanisms *)

(** A Kerberos mechanism that accepts every name, as name 7. *)
Definition krb5_mech : gssapi_mech_interface_desc :=
  {| gm_mech_oid := krb5_oid; gm_flags := 0;
     gm_import_name := Some (fun _ _ => (GSS_S_COMPLETE, 0, 7));
     gm_release_name := fun _ => 0 |}.

(** A Kerberos mechanism whose import answers BadMech itself. *)
Definition krb5_mech_refusing : gssapi_mech_interface_desc :=
  {| gm_mech_oid := krb5_oid; gm_flags := 0;
     gm_import_name := Some (fun _ _ => (GSS_S_BAD_MECH, 5, 0));
     gm_release_name := fun _ => 0 |}.

(** A mechanism that rejects every name. *)
Definition ntlm_oid : list Z := [43; 6; 1; 4; 1; 130; 55; 2; 2; 10].
Definition ntlm_mech : gssapi_mech_interface_desc :=
  {| gm_mech_oid := ntlm_oid; gm_flags := 0;
     gm_import_name := Some (fun _ _ => (GSS_S_BAD_NAME, 3, 0));
     gm_release_name := fun _ => 0 |}.

(** A third mechanism that accepts every name, as name 9. *)
Definition other_oid : list Z := [43; 6; 1; 5; 2; 5].
Definition other_mech : gssapi_mech_interface_desc :=
  {| gm_mech_oid := other_oid; gm_flags := 0;
     gm_import_name := Some (fun _ _ => (GSS_S_COMPLETE, 0, 9));
     gm_release_name := fun _ => 0 |}.

Definition user_name_type : list Z := [42; 134; 72; 134; 247; 18; 1; 2; 1; 1].

Definition switch_of (m : gssapi_mech_interface_desc) : _gss_mech_switch :=
  {| gm_switch_oid := gm_mech_oid m; gm_name_types := [user_name_type];
     gm_mech := m |}.

Definition empty_world : world := {| heap := []; live := []; calls := [] |}.

(** ** Vocabulary for further statements about the parser *)

(** Every load the run has made lies inside the buffer. *)
Definition loads_inside (b : gss_buffer_desc) (s : locals) : Prop :=
  Forall (fun off => in_bounds b off = true) (loads s).

(** The two bytes at [off], read as a big-endian 16-bit number. *)
Definition be16_at (b : gss_buffer_desc) (off : Z) : Z :=
  load b off * 2 ^ 8 + load b (off + 1).

(** Where the DER header of the mechanism OID ends, as lines 101-123 read
    it: after TOK_ID, MECH_OID_LEN, the tag and the length byte at offset 5,
    and after as many further bytes as that byte says when its high bit is
    set. *)
Definition der_header_end (b : gss_buffer_desc) : Z :=
  6 + (if 128 <=? load b 5 then load b 5 else 0).

(** [m] returns early with no status but [st]. *)
Definition returns_only {A} (st : OM_uint32) (m : M A) : Prop :=
  forall b s s' st', m b s = (s', Return st') -> st' = st.

(** [m] sees the buffer only through its loads: on a buffer with the same
    bytes it runs the same, as long as its loads stay inside. *)
Definition sees_only_loads {A} (m : M A) : Prop :=
  forall b b' s,
    value b' = value b ->
    Forall (fun off => in_bounds b off = true) (loads (fst (m b s))) ->
    m b' s = m b s.

(** The layout of RFC 2743, section 3.2, that the comment at lines 222-226
    refers to: TOK_ID, MECH_OID_LEN, the DER-encoded mechanism OID, and what
    follows it. *)
Definition be16 (n : Z) : list Z := [n / 2 ^ 8 mod 2 ^ 8; n mod 2 ^ 8].
Definition be32 (n : Z) : list Z :=
  [n / 2 ^ 24 mod 2 ^ 8; n / 2 ^ 16 mod 2 ^ 8; n / 2 ^ 8 mod 2 ^ 8;
   n mod 2 ^ 8].
Definition is_byte (x : Z) : Prop := 0 <= x < 256.
Definition token_header (tok_id1 : Z) (oid : list Z) : list Z :=
  [4; tok_id1] ++ be16 (Z.of_nat (List.length oid) + 2)
  ++ [6; Z.of_nat (List.length oid)].
Definition plain_token (oid name : list Z) : list Z :=
  token_header 1 oid ++ oid ++ be32 (Z.of_nat (List.length name)) ++ name.
Definition composite_token_of (oid suffix : list Z) : list Z :=
  token_header 2 oid ++ oid ++ suffix.

(** ** Vocabulary for further statements about [gss_import_name] *)

(** What lines 262-303 never change, and the only way they bail out. *)
Definition walk_keeps (name : _gss_name) (o : walk) : Prop :=
  match o with
  | walked name' _ _ =>
      gn_type name' = gn_type name /\ gn_value name' = gn_value name /\
      exists more, gn_mn name' = gn_mn name ++ more
  | bailed major minor _ _ => major = GSS_S_FAILURE /\ minor = ENOMEM
  | wild => True
  end.

(** The calls lines 283-289 make for mechanism [m]: its import-name
    operation, and the error reporter when the import does not answer
    Complete. *)
Definition asked (v : list Z) (ty : gss_OID) (m : _gss_mech_switch)
  : list call :=
  match gm_import_name (gm_mech m) with
  | Some import =>
      let '(major, minor, _) := import v ty in
      import_name_call (gm_mech_oid (gm_mech m)) v ty
      :: (if major =? GSS_S_COMPLETE then []
          else [mg_error_call (gm_mech_oid (gm_mech m)) minor])
  | None => []
  end.

(** A mechanism registered without an import-name operation. *)
Definition mute_mech : gssapi_mech_interface_desc :=
  {| gm_mech_oid := other_oid; gm_flags := 0; gm_import_name := None;
     gm_release_name := fun _ => 0 |}.

(** Lines 305-322, for each way the loop can end. *)
Definition after_walk (o : walk) : option result :=
  match o with
  | wild => None
  | bailed major minor name w => Some (out major minor name w)
  | walked name minor w =>
      match gn_mn name with
      | [] => Some (out GSS_S_NAME_NOT_MN 0 name w)
      | _ :: _ =>
          Some {| major_status := GSS_S_COMPLETE; minor_status := Some minor;
                  output_name := Some name; after := w |}
      end
  end.

(** * Properties *)

Arguments to_size_t : simpl never.
Arguments to_uint32 : simpl never.
Arguments to_uchar : simpl never.
Arguments to_int : simpl never.

(** ** Machine arithmetic *)

Lemma to_size_t_range x : 0 <= to_size_t x < 2 ^ 64.
Proof. unfold to_size_t. apply Z.mod_pos_bound. lia. Qed.

Lemma to_size_t_small x : 0 <= x < 2 ^ 64 -> to_size_t x = x.
Proof. intros. unfold to_size_t. apply Z.mod_small. lia. Qed.

Lemma to_size_t_sub_l x k : to_size_t (to_size_t x - k) = to_size_t (x - k).
Proof. unfold to_size_t. apply Zminus_mod_idemp_l. Qed.

Lemma to_size_t_neg x : - 2 ^ 64 <= x < 0 -> to_size_t x = x + 2 ^ 64.
Proof.
  intros. unfold to_size_t.
  symmetry. apply Z.mod_unique with (q := -1); lia.
Qed.

Lemma to_uint32_range x : 0 <= to_uint32 x < 2 ^ 32.
Proof. unfold to_uint32. apply Z.mod_pos_bound. lia. Qed.

Lemma load_range b off : 0 <= load b off < 256.
Proof. unfold load, to_uchar. apply Z.mod_pos_bound. lia. Qed.

Lemma land_shiftl_low a c k :
  0 <= k -> 0 <= c < 2 ^ k -> Z.land (Z.shiftl a k) c = 0.
Proof.
  intros Hk Hc. apply Z.bits_inj'. intros n Hn.
  rewrite Z.land_spec, Z.bits_0.
  destruct (Z.ltb_spec n k) as [Hlt|Hge].
  - rewrite Z.shiftl_spec_low by lia. reflexivity.
  - destruct (Z.eq_dec c 0) as [->|Hnz].
    + rewrite Z.bits_0. apply andb_false_r.
    + rewrite (Z.bits_above_log2 c n); [apply andb_false_r | lia |].
      assert (Z.log2 c < k) by (apply Z.log2_lt_pow2; lia). lia.
Qed.

Lemma lor_shiftl_low a c k :
  0 <= k -> 0 <= c < 2 ^ k -> Z.lor (Z.shiftl a k) c = a * 2 ^ k + c.
Proof.
  intros Hk Hc.
  rewrite <- Z.lxor_lor by (apply land_shiftl_low; assumption).
  rewrite <- Z.add_nocarry_lxor by (apply land_shiftl_low; assumption).
  rewrite Z.shiftl_mul_pow2 by assumption. reflexivity.
Qed.

Lemma be32_at_range b off : 0 <= be32_at b off < 2 ^ 32.
Proof.
  unfold be32_at.
  pose proof (load_range b off). pose proof (load_range b (off + 1)).
  pose proof (load_range b (off + 2)). pose proof (load_range b (off + 3)).
  lia.
Qed.

Lemma name_len_word b off :
  Z.lor (Z.lor (Z.lor (Z.shiftl (load b off) 24) (Z.shiftl (load b (off + 1)) 16))
               (Z.shiftl (load b (off + 2)) 8)) (load b (off + 3))
  = be32_at b off.
Proof.
  unfold be32_at.
  pose proof (load_range b off) as H0. pose proof (load_range b (off + 1)) as H1.
  pose proof (load_range b (off + 2)) as H2. pose proof (load_range b (off + 3)) as H3.
  replace (Z.shiftl (load b off) 24)
    with (Z.shiftl (Z.shiftl (load b off) 8) 16)
    by (rewrite Z.shiftl_shiftl by lia; reflexivity).
  rewrite <- Z.shiftl_lor.
  rewrite (lor_shiftl_low (load b off) (load b (off + 1)) 8) by lia.
  replace (Z.shiftl (load b off * 2 ^ 8 + load b (off + 1)) 16)
    with (Z.shiftl (Z.shiftl (load b off * 2 ^ 8 + load b (off + 1)) 8) 8)
    by (rewrite Z.shiftl_shiftl by lia; reflexivity).
  rewrite <- Z.shiftl_lor.
  rewrite (lor_shiftl_low _ (load b (off + 2)) 8) by lia.
  rewrite (lor_shiftl_low _ (load b (off + 3)) 8) by lia.
  lia.
Qed.

Lemma to_int_small x : 0 <= x < 2 ^ 31 -> to_int x = x.
Proof. intros. unfold to_int. rewrite Z.mod_small by lia. lia. Qed.

Lemma to_int_big x : 2 ^ 31 <= x < 2 ^ 32 -> to_int x = x - 2 ^ 32.
Proof.
  intros. unfold to_int.
  replace ((x + 2 ^ 31) mod 2 ^ 32) with (x + 2 ^ 31 - 2 ^ 32).
  - lia.
  - apply Z.mod_unique with (q := 1); lia.
Qed.

(** ** Runs of the parser *)

Lemma bind_val {A B} (m : M A) (k : A -> M B) b s s' a :
  m b s = (s', Val a) -> bind m k b s = k a b s'.
Proof. intros E. unfold bind. rewrite E. reflexivity. Qed.

Lemma bind_return {A B} (m : M A) (k : A -> M B) b s s' st :
  m b s = (s', Return st) -> bind m k b s = (s', Return st).
Proof. intros E. unfold bind. rewrite E. reflexivity. Qed.

(** The loop never returns early; it moves the cursor by [digits] and takes
    as much from [len] and [t]. *)
Lemma der_length_loop_run (n : nat) :
  forall acc b s,
    0 <= acc < 2 ^ 32 -> 0 <= len s < 2 ^ 64 -> 0 <= t s < 2 ^ 64 ->
    exists s' v,
      der_length_loop n acc b s = (s', Val v) /\
      0 <= v < 2 ^ 32 /\
      p s' = p s + Z.of_nat n /\
      len s' = to_size_t (len s - Z.of_nat n) /\
      t s' = to_size_t (t s - Z.of_nat n).
Proof.
  induction n as [|n IH]; intros acc b s Hacc Hl Ht.
  - exists s, acc. cbn [der_length_loop ret].
    rewrite !Z.sub_0_r, !to_size_t_small by assumption.
    repeat split; try lia.
  - cbn [der_length_loop].
    rewrite (bind_val _ _ b s _ _ eq_refl).
    rewrite (bind_val _ _ b _ _ _ eq_refl).
    rewrite (bind_val _ _ b _ _ _ eq_refl).
    rewrite (bind_val _ _ b _ _ _ eq_refl).
    rewrite (bind_val _ _ b _ _ _ eq_refl).
    cbn [p len t loads].
    match goal with |- context [der_length_loop n ?a b ?s0] =>
      destruct (IH a b s0 (to_uint32_range _) (to_size_t_range _)
                  (to_size_t_range _))
        as (s' & v & E & Hv & Hp & Hl' & Ht')
    end.
    exists s', v. rewrite E. cbn [p len t] in *.
    repeat split; try lia.
    + rewrite Hl', to_size_t_sub_l. f_equal. lia.
    + rewrite Ht', to_size_t_sub_l. f_equal. lia.
Qed.

Ltac run_in H := rewrite (bind_val _ _ _ _ _ _ eq_refl) in H; cbn [p len t loads] in H.
Ltac run := rewrite (bind_val _ _ _ _ _ _ eq_refl); cbn [p len t loads].

Lemma val_inj {A} (s s' : locals) (a a' : A) :
  (s, Val a) = (s', Val a') -> s = s' /\ a = a'.
Proof. intros E. injection E as -> ->. split; reflexivity. Qed.

Ltac size_arith :=
  unfold to_size_t in *;
  change (2 ^ 64) with 18446744073709551616 in *;
  Z.div_mod_to_equations; lia.

Lemma return_if_true {B} st (k : unit -> M B) b s :
  bind (return_if true st) k b s = (s, Return st).
Proof. reflexivity. Qed.

Lemma return_if_false {B} st (k : unit -> M B) b s :
  bind (return_if false st) k b s = k tt b s.
Proof. reflexivity. Qed.

Lemma bind_assoc {A B C} (m : M A) (k : A -> M B) (h : B -> M C) b s :
  bind (bind m k) h b s = bind m (fun a => bind (k a) h) b s.
Proof. unfold bind. destruct (m b s) as [s1 [a|st]]; reflexivity. Qed.

(** What a successful run of lines 91-125 establishes. *)
Lemma mech_oid_field_val b s s' n :
  0 <= len s < 2 ^ 64 ->
  mech_oid_field b s = (s', Val n) ->
  t s' = n /\ 0 <= n < 2 ^ 32 /\ p s <= p s' /\
  len s' = to_size_t (len s - (p s' - p s)).
Proof.
  intros Hl H. unfold mech_oid_field in H.
  run_in H.
  destruct (len s <? 2); [rewrite return_if_true in H; discriminate H|].
  rewrite return_if_false in H.
  do 5 run_in H.
  run_in H.
  match type of H with context [return_if ?c _] => destruct c end;
    [rewrite return_if_true in H; discriminate H|].
  rewrite return_if_false in H.
  do 5 run_in H.
  match type of H with context [if ?c then _ else _] => destruct c end.
  - rewrite bind_assoc in H. run_in H.
    do 4 (rewrite bind_assoc in H; run_in H).
    match type of H with
      bind (der_length_loop ?digits 0) _ b ?s0 = _ =>
        destruct (der_length_loop_run digits 0 b s0
          ltac:(lia) (to_size_t_range _) (to_size_t_range _))
          as (s1 & v & E & Hv & Hp & Hl1 & Ht1)
    end.
    cbn [p len t loads] in *.
    rewrite (bind_val _ _ _ _ s1 v E) in H.
    run_in H.
    destruct (v =? t s1) eqn:Ev;
      [|rewrite return_if_true in H; discriminate H].
    rewrite return_if_false in H. cbn [ret] in H.
    destruct (val_inj _ _ _ _ H) as [<- <-]. apply Z.eqb_eq in Ev.
    repeat split; try lia.
    rewrite Hl1. size_arith.
  - rewrite bind_assoc in H. run_in H.
    do 4 (rewrite bind_assoc in H; run_in H).
    rewrite (bind_val _ _ _ _ _ _ eq_refl) in H.
    run_in H.
    match type of H with context [return_if (negb (?v =? ?x)) _] =>
      destruct (v =? x) eqn:Ev end;
      [|rewrite return_if_true in H; discriminate H].
    rewrite return_if_false in H. cbn [ret] in H.
    destruct (val_inj _ _ _ _ H) as [<- <-]. apply Z.eqb_eq in Ev. cbn [p len t loads].
    pose proof (load_range b (p s + 2 + 1 + 0)).
    repeat split; try lia.
    size_arith.
Qed.

Lemma load_in_bounds b i x :
  nth_error (value b) i = Some x -> 0 <= x < 256 -> load b (Z.of_nat i) = x.
Proof.
  intros Hn Hx. unfold load, length.
  assert (Hi : (i < List.length (value b))%nat)
    by (apply nth_error_Some; rewrite Hn; discriminate).
  replace ((0 <=? Z.of_nat i) && (Z.of_nat i <? Z.of_nat (List.length (value b))))
    with true by (symmetry; apply andb_true_iff; split; lia).
  rewrite Nat2Z.id, (nth_error_nth _ _ 0 Hn).
  unfold to_uchar. apply Z.mod_small. lia.
Qed.

(** Lines 53-67 on a buffer that starts with a TOK_ID. *)
Lemma tok_id_run b (c : bool) :
  length b < 2 ^ 64 ->
  firstn 2 (value b) = [4; if c then 2 else 1] ->
  tok_id b (entry b) = (after_tok_id b, Val c).
Proof.
  intros Hlen Hfirst.
  assert (H0 : load b 0 = 4).
  { apply (load_in_bounds b 0); [|lia].
    destruct (value b) as [|x l]; [discriminate|].
    cbn in Hfirst. inversion Hfirst. reflexivity. }
  assert (H1 : load b 1 = if c then 2 else 1).
  { apply (load_in_bounds b 1); [|destruct c; lia].
    destruct (value b) as [|x [|y l]]; try discriminate.
    cbn in Hfirst. inversion Hfirst. reflexivity. }
  assert (H2 : 2 <= length b).
  { unfold length. destruct (value b) as [|x [|y l]]; try discriminate.
    cbn [List.length]. lia. }
  unfold tok_id, entry. run.
  replace (to_size_t (length b) <? 2) with false
    by (rewrite to_size_t_small by lia; symmetry; apply Z.ltb_ge; lia).
  rewrite return_if_false. run. change (0 + 0) with 0. rewrite H0.
  change (negb (4 =? 4)) with false. rewrite return_if_false.
  run. change (0 + 1) with 1. rewrite H1.
  unfold after_tok_id.
  destruct c; cbn; (rewrite to_size_t_sub_l, to_size_t_small by lia);
    reflexivity.
Qed.

(** Lines 129-141 for a non-composite token, from locals whose [t] is an
    [OM_uint32] value. *)
Lemma name_len_run b s :
  0 <= t s < 2 ^ 32 -> 0 <= len s < 2 ^ 64 ->
  (len s < t s + 4 -> name_len false b s = (s, Return GSS_S_BAD_NAME)) /\
  (t s + 4 <= len s ->
   exists s',
     p s' = p s + t s + 4 /\ len s' = len s - t s - 4 /\
     name_len false b s =
       (s', if len s - t s - 4 =? to_size_t (to_int (be32_at b (p s + t s)))
            then Val tt else Return GSS_S_BAD_NAME)).
Proof.
  intros Ht Hl. unfold name_len. cbn [negb].
  split; intros Hc.
  - do 2 run.
    replace (len s <? to_size_t (t s + 4)) with true
      by (rewrite to_size_t_small by lia; symmetry; apply Z.ltb_lt; lia).
    apply return_if_true.
  - do 2 run.
    replace (len s <? to_size_t (t s + 4)) with false
      by (rewrite to_size_t_small by lia; symmetry; apply Z.ltb_ge; lia).
    rewrite return_if_false.
    do 11 run.
    rewrite Z.add_0_r, <- !Z.add_assoc. cbn [Z.add Pos.add].
    rewrite !Z.add_assoc, name_len_word.
    rewrite to_size_t_sub_l, (to_size_t_small (len s - t s - 4)) by lia.
    eexists. split; [|split]; cycle 2.
    + unfold return_if.
      destruct (len s - t s - 4 =? _); reflexivity.
    + cbn [p]. lia.
    + reflexivity.
Qed.

(** ** Loads only accumulate *)

Lemma keeps_ret {A} (a : A) : keeps_loads (ret a).
Proof. intros b s x H. exact H. Qed.

Lemma keeps_fail {A} st : keeps_loads (@fail A st).
Proof. intros b s x H. exact H. Qed.

Lemma keeps_return_if c st : keeps_loads (return_if c st).
Proof. destruct c; [apply keeps_fail | apply keeps_ret]. Qed.

Lemma keeps_deref k : keeps_loads (deref k).
Proof. intros b s x H. right. exact H. Qed.

Lemma keeps_p_add k : keeps_loads (p_add k).
Proof. intros b s x H. exact H. Qed.

Lemma keeps_len_sub k : keeps_loads (len_sub k).
Proof. intros b s x H. exact H. Qed.

Lemma keeps_t_set k : keeps_loads (t_set k).
Proof. intros b s x H. exact H. Qed.

Lemma keeps_get_p : keeps_loads get_p.
Proof. intros b s x H. exact H. Qed.

Lemma keeps_get_len : keeps_loads get_len.
Proof. intros b s x H. exact H. Qed.

Lemma keeps_get_t : keeps_loads get_t.
Proof. intros b s x H. exact H. Qed.

Lemma keeps_bind {A B} (m : M A) (k : A -> M B) :
  keeps_loads m -> (forall a, keeps_loads (k a)) -> keeps_loads (bind m k).
Proof.
  intros Hm Hk b s x H. unfold bind.
  specialize (Hm b s x H).
  destruct (m b s) as [s1 [a|st]]; cbn [fst] in *.
  - apply Hk. exact Hm.
  - exact Hm.
Qed.

Lemma keeps_if {A} (c : bool) (m1 m2 : M A) :
  keeps_loads m1 -> keeps_loads m2 -> keeps_loads (if c then m1 else m2).
Proof. destruct c; auto. Qed.

Create HintDb loads.
#[local] Hint Resolve keeps_ret keeps_fail keeps_return_if keeps_deref
  keeps_p_add keeps_len_sub keeps_t_set keeps_get_p keeps_get_len keeps_get_t
  : loads.

Ltac keeps :=
  repeat first
    [ apply keeps_bind; [|intro]
    | apply keeps_if
    | solve [auto with loads] ].

Lemma keeps_der_length_loop n : forall acc, keeps_loads (der_length_loop n acc).
Proof.
  induction n as [|n IH]; intros acc; cbn [der_length_loop]; keeps.
Qed.
#[local] Hint Resolve keeps_der_length_loop : loads.

Lemma keeps_name_len c : keeps_loads (name_len c).
Proof. unfold name_len. keeps. Qed.
#[local] Hint Resolve keeps_name_len : loads.

(** A load made before a continuation runs is still on record after it. *)
Lemma loaded_then {A B} (m : M A) (k : A -> M B) b s x :
  (forall a, keeps_loads (k a)) ->
  In x (loads (fst (m b s))) -> In x (loads (fst (bind m k b s))).
Proof.
  intros Hk H. unfold bind.
  destruct (m b s) as [s1 [a|st]]; cbn [fst] in *.
  - apply Hk. exact H.
  - exact H.
Qed.

(** Line 101 loads the tag byte at [p + 2] whenever line 91 lets the run
    through, whatever [len] is by then. *)
Lemma mech_oid_field_loads_tag b s :
  2 <= len s -> In (p s + 2) (loads (fst (mech_oid_field b s))).
Proof.
  intros Hl. unfold mech_oid_field. run.
  replace (len s <? 2) with false by (symmetry; apply Z.ltb_ge; lia).
  rewrite return_if_false. do 5 run.
  apply loaded_then.
  - intro tag. keeps.
  - cbn. left. lia.
Qed.

Lemma high_bit_set x : 128 <= x < 256 -> (Z.land x 128 =? 0) = false.
Proof.
  intros Hx. apply Z.eqb_neq. intros E.
  assert (Hb : Z.testbit (Z.land x 128) 7 = false) by (rewrite E; reflexivity).
  rewrite Z.land_spec in Hb.
  assert (Hx7 : Z.testbit x 7 = true).
  { apply Z.testbit_true; [lia|].
    change (2 ^ 7) with 128.
    replace (x / 128) with 1; [reflexivity|].
    apply Z.div_unique with (r := x - 128); lia. }
  rewrite Hx7 in Hb. discriminate Hb.
Qed.

(** Lines 106-125 when the length byte [lb] has its high bit set: the loop
    takes [lb] bytes, the whole byte and not its low seven bits. *)
Lemma long_form_run b s :
  2 <= len s < 2 ^ 64 ->
  load b (p s + 2) = 6 ->
  128 <= load b (p s + 3) ->
  exists s' v,
    0 <= v < 2 ^ 32 /\
    p s' = p s + 4 + load b (p s + 3) /\
    t s' = to_size_t (load b (p s) * 2 ^ 8 + load b (p s + 1) - 2
                      - load b (p s + 3)) /\
    mech_oid_field b s =
      (s', if v =? t s' then Val v else Return GSS_S_BAD_NAME).
Proof.
  intros Hl Htag Hlb.
  pose proof (load_range b (p s + 3)) as Hr.
  unfold mech_oid_field. run.
  replace (len s <? 2) with false by (symmetry; apply Z.ltb_ge; lia).
  rewrite return_if_false. do 6 run.
  rewrite !Z.add_0_r, Htag. change (negb (6 =? 6)) with false.
  rewrite return_if_false. do 5 run.
  rewrite !Z.add_0_r.
  replace (p s + 2 + 1) with (p s + 3) by lia.
  rewrite high_bit_set by lia. cbn [negb].
  rewrite bind_assoc. run.
  do 4 (rewrite bind_assoc; run).
  match goal with
    |- context [bind (der_length_loop ?digits 0) _ b ?s0] =>
      destruct (der_length_loop_run digits 0 b s0
        ltac:(lia) (to_size_t_range _) (to_size_t_range _))
        as (s1 & v & E & Hv & Hp & Hl1 & Ht1)
  end.
  cbn [p len t loads] in *.
  rewrite (bind_val _ _ _ _ s1 v E). run.
  rewrite ?Z.add_0_r in Hp, Ht1.
  replace (p s + 2 + 1) with (p s + 3) in Hp, Ht1 by lia.
  exists s1, v. repeat split; try lia.
  - rewrite Ht1, Z.shiftl_mul_pow2 by lia. size_arith.
  - unfold return_if. destruct (v =? t s1); reflexivity.
Qed.

(** ** The parser: claims *)

(** C9.  The bytes 04 01 00 0B 06 09 2A 86 48 86 F7 12 01 02 02 00 00 00 03
    66 6F 6F parse, whatever lies after them in memory: the token is not
    composite, the mechanism OID content is the nine bytes 2A 86 48 86 F7 12
    01 02 02, the payload is the three bytes of "foo", and every load the
    parser makes is inside the buffer. *)
Theorem krb5_token_parses (junk : Z -> Z) :
  let b := {| value := krb5_token; beyond := junk |} in
  exists s k,
    run_parser b = (s, Val k) /\
    composite k = false /\
    mech_oid_of b k = [42; 134; 72; 134; 247; 18; 1; 2; 2] /\
    payload_of b k = [102; 111; 111] /\
    forallb (in_bounds b) (loads s) = true.
Proof.
  intros b. eexists. eexists.
  split; [vm_compute; reflexivity|].
  repeat split; vm_compute; reflexivity.
Qed.

(** C1, at the four-byte buffer 04 01 00 0B.  The buffer owns offsets 0 to 3;
    the run loads the OID tag byte from offset 4, whatever memory holds
    there.  And on the four-byte buffer 04 02 00 03, when the two bytes after
    it happen to be 06 01, the parser does not fail at all. *)
Theorem tag_byte_loaded_past_the_buffer (junk : Z -> Z) :
  let b := {| value := short_token; beyond := junk |} in
  let b' := {| value := short_composite_token; beyond := oid_header_after |} in
  length b = 4 /\
  In 4 (loads (fst (run_parser b))) /\
  in_bounds b 4 = false /\
  length b' = 4 /\
  run_parser b' =
    ({| p := 6; len := to_size_t (-2); t := 1; loads := [5; 5; 4; 3; 2; 1; 0] |},
     Val {| composite := true; mech_oid_length := 1; mech_oid_elements := 6;
            rest := 6; rest_length := to_size_t (-2) |}).
Proof.
  intros b b'. split; [reflexivity|]. split.
  - unfold run_parser, parse_export_name.
    rewrite (bind_val _ _ _ _ _ _
               (tok_id_run b false ltac:(vm_compute; reflexivity) eq_refl)).
    apply loaded_then.
    + intro n. keeps.
    + apply (mech_oid_field_loads_tag b (after_tok_id b)).
      vm_compute. discriminate.
  - repeat split; vm_compute; reflexivity.
Qed.

(** C2, at the well-formed token whose OID length is written 81 09.  The low
    seven bits of 81 say one continuation byte; the run takes 129 of them,
    far past the 23 bytes of the buffer, and answers BadName whatever memory
    holds there. *)
Theorem one_continuation_byte_is_rejected (junk : Z -> Z) :
  let b := {| value := long_form_token; beyond := junk |} in
  length b = 23 /\
  Z.land (load b 5) 127 = 1 /\
  snd (run_parser b) = Return GSS_S_BAD_NAME /\
  p (fst (run_parser b)) = 6 + 129.
Proof.
  intros b. split; [reflexivity|]. split; [reflexivity|].
  unfold run_parser, parse_export_name.
  rewrite (bind_val _ _ _ _ _ _
             (tok_id_run b false ltac:(vm_compute; reflexivity) eq_refl)).
  destruct (long_form_run b (after_tok_id b))
    as (s' & v & Hv & Hp & Ht & E);
    [vm_compute; split; [discriminate | reflexivity] | reflexivity
    | vm_compute; discriminate |].
  assert (Hne : (v =? t s') = false).
  { apply Z.eqb_neq. rewrite Ht.
    replace (to_size_t _) with (2 ^ 64 - 119) by (vm_compute; reflexivity).
    lia. }
  rewrite Hne in E.
  rewrite (bind_return _ _ _ _ _ _ E). cbn [fst snd].
  split; [reflexivity|]. rewrite Hp. reflexivity.
Qed.

(** C5.  A buffer that starts 04 02 and whose mechanism-OID field passes
    lines 91-125 is accepted as it stands: the run ends where the OID field
    ended, with no further load and no further check, and what follows the
    OID header is the remainder. *)
Theorem composite_token_has_no_name_len_check b s2 n :
  length b < 2 ^ 64 ->
  firstn 2 (value b) = [4; 2] ->
  mech_oid_field b (after_tok_id b) = (s2, Val n) ->
  run_parser b =
    (s2, Val {| composite := true; mech_oid_length := n;
                mech_oid_elements := p s2; rest := p s2;
                rest_length := len s2 |}).
Proof.
  intros Hlen Hfirst Hoid.
  unfold run_parser, parse_export_name.
  rewrite (bind_val _ _ _ _ _ _ (tok_id_run b true Hlen Hfirst)).
  rewrite (bind_val _ _ _ _ _ _ Hoid).
  reflexivity.
Qed.

Lemma composite_token_has_no_name_len_check_witness :
  run_parser {| value := composite_token; beyond := zeroes |} =
    ({| p := 6; len := 18; t := 9; loads := [5; 5; 4; 3; 2; 1; 0] |},
     Val {| composite := true; mech_oid_length := 9; mech_oid_elements := 6;
            rest := 6; rest_length := 18 |}).
Proof.
  apply (composite_token_has_no_name_len_check
           {| value := composite_token; beyond := zeroes |}
           {| p := 6; len := 18; t := 9; loads := [5; 5; 4; 3; 2; 1; 0] |} 9).
  - vm_compute. reflexivity.
  - reflexivity.
  - vm_compute. reflexivity.
Defined.

Lemma name_len_value_small x :
  0 <= x < 2 ^ 31 -> to_size_t (to_int x) = x.
Proof. intros H. rewrite to_int_small, to_size_t_small by lia. reflexivity. Qed.

Lemma name_len_value_big x :
  2 ^ 31 <= x < 2 ^ 32 -> to_size_t (to_int x) = x + 2 ^ 64 - 2 ^ 32.
Proof.
  intros H. rewrite to_int_big by lia. rewrite to_size_t_neg by lia. lia.
Qed.

(** C6.  A buffer that starts 04 01, of a size an object can have, whose
    mechanism-OID field lies inside the buffer and passes lines 91-125 with
    OID length [n]: unless at least [n + 4] bytes remain after the OID header
    and the bytes that remain after NAME_LEN number exactly the big-endian
    32-bit value [N] read after the OID, the parser answers BadName.  When
    they do, and [N] is a positive [int], the parser accepts, and the
    remainder is those [N] bytes. *)
Theorem non_composite_name_len_is_exact b s2 n :
  length b < 2 ^ 63 ->
  firstn 2 (value b) = [4; 1] ->
  mech_oid_field b (after_tok_id b) = (s2, Val n) ->
  p s2 <= length b ->
  let remaining := length b - p s2 in
  let N := be32_at b (p s2 + n) in
  (~ (n + 4 <= remaining /\ remaining - (n + 4) = N) ->
   snd (run_parser b) = Return GSS_S_BAD_NAME) /\
  (n + 4 <= remaining -> remaining - (n + 4) = N -> N < 2 ^ 31 ->
   exists s3,
     run_parser b =
       (s3, Val {| composite := false; mech_oid_length := n;
                   mech_oid_elements := p s2; rest := p s2 + n + 4;
                   rest_length := N |})).
Proof.
  intros Hlen Hfirst Hoid Hin remaining N.
  assert (H2 : 2 <= length b).
  { unfold length. destruct (value b) as [|x [|y l]]; try discriminate.
    cbn [List.length]. lia. }
  destruct (mech_oid_field_val b (after_tok_id b) s2 n) as (Ht & Hn & Hp & Hl);
    [cbn [len after_tok_id]; lia | exact Hoid |].
  cbn [p len after_tok_id] in Hp, Hl.
  assert (Hl' : len s2 = remaining).
  { rewrite Hl. unfold remaining. rewrite to_size_t_small by lia. lia. }
  destruct (name_len_run b s2) as [Hshort Hlong]; [lia | lia |].
  rewrite Ht, Hl' in Hshort, Hlong.
  pose proof (be32_at_range b (p s2 + n)) as HN. fold N in HN.
  assert (Hparse : run_parser b =
    bind (name_len false)
         (fun _ => q <- get_p ;; l <- get_len ;;
            ret {| composite := false; mech_oid_length := n;
                   mech_oid_elements := p s2; rest := q; rest_length := l |})
         b s2).
  { unfold run_parser, parse_export_name.
    rewrite (bind_val _ _ _ _ _ _ (tok_id_run b false ltac:(lia) Hfirst)).
    rewrite (bind_val _ _ _ _ _ _ Hoid). run. reflexivity. }
  rewrite Hparse. split.
  - intros Hnot.
    destruct (Z.lt_ge_cases remaining (n + 4)) as [Hlt|Hge].
    + rewrite (bind_return _ _ _ _ _ _ (Hshort Hlt)). reflexivity.
    + destruct (Hlong Hge) as (s' & _ & _ & E). fold N in E.
      replace (remaining - n - 4 =? to_size_t (to_int N)) with false in E.
      * rewrite (bind_return _ _ _ _ _ _ E). reflexivity.
      * symmetry. apply Z.eqb_neq.
        destruct (Z.lt_ge_cases N (2 ^ 31)).
        -- rewrite name_len_value_small by lia. lia.
        -- rewrite name_len_value_big by lia. unfold remaining. lia.
  - intros Hge Heq Hpos.
    destruct (Hlong Hge) as (s' & Hp' & Hlen' & E). fold N in E.
    rewrite name_len_value_small in E by lia.
    replace (remaining - n - 4 =? N) with true in E
      by (symmetry; apply Z.eqb_eq; lia).
    exists s'. rewrite (bind_val _ _ _ _ _ _ E). do 2 run.
    unfold ret. rewrite Hp', Hlen'.
    repeat f_equal; lia.
Qed.

(** Why the OID header has to lie inside the buffer above: once a load has
    gone past the end, [len] has wrapped below zero, and the comparison at
    line 139 is between two wrapped numbers.  Here nothing remains after the
    four bytes of the buffer, NAME_LEN is read as FF FF FF F9 from memory
    that is not the token's, and the parser accepts. *)
Example short_plain_token_accepted :
  let b := {| value := short_plain_token; beyond := plain_name_after |} in
  length b = 4 /\
  snd (run_parser b) =
    Val {| composite := false; mech_oid_length := 1; mech_oid_elements := 6;
           rest := 11; rest_length := to_size_t (-7) |}.
Proof. split; vm_compute; reflexivity. Qed.

Lemma non_composite_name_len_is_exact_witness :
  exists s3,
    run_parser {| value := krb5_token; beyond := zeroes |} =
      (s3, Val {| composite := false; mech_oid_length := 9;
                  mech_oid_elements := 6; rest := 19; rest_length := 3 |}).
Proof.
  apply (proj2 (non_composite_name_len_is_exact
                  {| value := krb5_token; beyond := zeroes |}
                  {| p := 6; len := 16; t := 9;
                     loads := [5; 5; 4; 3; 2; 1; 0] |} 9
                  ltac:(vm_compute; reflexivity) eq_refl
                  ltac:(vm_compute; reflexivity)
                  ltac:(vm_compute; discriminate))).
  - vm_compute. discriminate.
  - vm_compute. reflexivity.
  - vm_compute. reflexivity.
Defined.

(** ** The world: allocation and release *)

Lemma oid_eqb_refl x : oid_eqb x x = true.
Proof. unfold oid_eqb. destruct (list_eq_dec Z.eq_dec x x); congruence. Qed.

Lemma resource_eqb_refl r : resource_eqb r r = true.
Proof.
  destruct r; cbn; try reflexivity.
  rewrite oid_eqb_refl, Z.eqb_refl. reflexivity.
Qed.

Lemma remove_first_head r l : remove_first r (r :: l) = l.
Proof. cbn. rewrite resource_eqb_refl. reflexivity. Qed.

Lemma alloc_never_fails r w :
  never_fails w ->
  exists w', alloc r w = (true, w') /\ never_fails w' /\
             live w' = r :: live w /\ calls w' = calls w.
Proof.
  unfold never_fails, alloc. intros H.
  destruct (heap w) as [|ok h] eqn:E.
  - eexists. split; [reflexivity|]. cbn. auto.
  - inversion H as [|? ? Hok Hh]; subst.
    eexists. split; [reflexivity|]. cbn. auto.
Qed.

Lemma create_name_calls x w :
  calls (snd (_gss_create_name x w)) = calls w.
Proof.
  unfold _gss_create_name, alloc.
  destruct (heap w) as [|[|] [|[|] h]]; destruct x as [[n m]|]; reflexivity.
Qed.

Lemma create_name_none_live x w :
  fst (_gss_create_name x w) = None ->
  live (snd (_gss_create_name x w)) = live w.
Proof.
  unfold _gss_create_name, alloc.
  destruct (heap w) as [|[|] [|[|] h]]; destruct x as [[n m]|]; cbn;
    try discriminate; try reflexivity;
    intros _; apply remove_first_head.
Qed.

Lemma create_name_singleton n m w name :
  fst (_gss_create_name (Some (n, m)) w) = Some name ->
  gn_mn name = [{| gmn_mech := m; gmn_mech_oid := gm_mech_oid m;
                   gmn_name := n |}].
Proof.
  unfold _gss_create_name, alloc.
  destruct (heap w) as [|[|] [|[|] h]]; cbn; try discriminate;
    intros E; injection E as <-; reflexivity.
Qed.

(** ** The exported-name path: claims *)

(** What lines 143-169 do once the mechanism is found and can import. *)
Lemma exported_name_call_trace
    mechs b name_type w s k m import :
  run_parser b = (s, Val k) ->
  __gss_get_mechanism mechs (mech_oid_of b k) = Some m ->
  gm_import_name m = Some import ->
  let r := _gss_import_export_name mechs b name_type w in
  let answer := import (value b) name_type in
  exists later,
    calls (after r) =
      calls w ++
      import_name_call (gm_mech_oid m) (value b) name_type :: later /\
    existsb is_import_call later = false /\
    (fst (fst answer) <> GSS_S_COMPLETE ->
     major_status r = fst (fst answer) /\ output_name r = None) /\
    (forall name, output_name r = Some name ->
       map gmn_name (gn_mn name) = [snd answer]).
Proof.
  intros Hrun Hget Himp r answer. subst r answer.
  unfold _gss_import_export_name. rewrite Hrun.
  unfold import_parsed. rewrite Hget, Himp.
  destruct (import (value b) name_type) as [[major minor] n]. cbn [fst snd].
  destruct (major =? GSS_S_COMPLETE) eqn:Emaj; cbn [negb].
  - apply Z.eqb_eq in Emaj.
    match goal with |- context [_gss_create_name ?x ?w2] =>
      pose proof (create_name_calls x w2) as Hc;
      pose proof (create_name_singleton n m w2) as Hs;
      destruct (_gss_create_name x w2) as [[name|] w3]
    end; cbn [fst snd] in Hc, Hs; cbn [mech_gives called calls] in Hc.
    + exists []. cbn [major_status output_name after]. rewrite Hc.
      split; [reflexivity|]. split; [reflexivity|]. split.
      * intros Hne. contradiction.
      * intros name' E. injection E as <-.
        rewrite (Hs name eq_refl). reflexivity.
    + exists [release_name_call (gm_mech_oid m) n].
      cbn [major_status output_name after mech_releases free called calls].
      rewrite Hc, <- app_assoc.
      split; [reflexivity|]. split; [reflexivity|]. split.
      * intros Hne. contradiction.
      * intros name' E. discriminate E.
  - exists [mg_error_call (gm_mech_oid m) minor].
    cbn [major_status output_name after _gss_mg_error called calls].
    rewrite <- app_assoc.
    split; [reflexivity|]. split; [reflexivity|]. split.
    + intros _. split; reflexivity.
    + intros name' E. discriminate E.
Qed.

(** C7.  When the token parses, its mechanism is registered and can import
    names, the mechanism's import-name operation is called, once, on the
    whole token buffer and the caller's name type; a status other than
    Complete is what the call returns, and on Complete the name handed to
    the caller wraps the mechanism's name. *)
Theorem mechanism_is_given_the_whole_token
    mechs b name_type w s k m import :
  run_parser b = (s, Val k) ->
  __gss_get_mechanism mechs (mech_oid_of b k) = Some m ->
  gm_import_name m = Some import ->
  let r := _gss_import_export_name mechs b name_type w in
  let answer := import (value b) name_type in
  exists later,
    calls (after r) =
      calls w ++
      import_name_call (gm_mech_oid m) (value b) name_type :: later /\
    existsb is_import_call later = false /\
    (fst (fst answer) <> GSS_S_COMPLETE ->
     major_status r = fst (fst answer) /\ output_name r = None) /\
    (forall name, output_name r = Some name ->
       map gmn_name (gn_mn name) = [snd answer]).
Proof. exact (exported_name_call_trace mechs b name_type w s k m import). Qed.

Lemma mechanism_is_given_the_whole_token_witness :
  exists later,
    calls (after (_gss_import_export_name [switch_of krb5_mech]
                    {| value := krb5_token; beyond := zeroes |}
                    GSS_C_NT_EXPORT_NAME empty_world)) =
      [] ++ import_name_call krb5_oid krb5_token GSS_C_NT_EXPORT_NAME :: later.
Proof.
  destruct (mechanism_is_given_the_whole_token
              [switch_of krb5_mech]
              {| value := krb5_token; beyond := zeroes |}
              GSS_C_NT_EXPORT_NAME empty_world
              {| p := 19; len := 3; t := 3;
                 loads := [18; 17; 16; 15; 5; 5; 4; 3; 2; 1; 0] |}
              {| composite := false; mech_oid_length := 9;
                 mech_oid_elements := 6; rest := 19; rest_length := 3 |}
              krb5_mech (fun _ _ => (GSS_S_COMPLETE, 0, 7))
              ltac:(vm_compute; reflexivity)
              ltac:(vm_compute; reflexivity)
              eq_refl) as (later & H & _).
  exists later. exact H.
Defined.




(** C10.  When the mechanism has imported the name and the wrapping
    [_gss_create_name] then fails, the mechanism's release-name operation is
    called on the name just imported and the call returns Failure: the
    output name is the null name stored on entry, the mechanism saw exactly
    the import and the release, and nothing the call allocated is left. *)
Theorem wrapping_failure_releases_the_mechanism_name
    mechs b name_type w s k m import minor n :
  run_parser b = (s, Val k) ->
  __gss_get_mechanism mechs (mech_oid_of b k) = Some m ->
  gm_import_name m = Some import ->
  import (value b) name_type = (GSS_S_COMPLETE, minor, n) ->
  fst (_gss_create_name (Some (n, m))
         (mech_gives m n
            (called (import_name_call (gm_mech_oid m) (value b) name_type) w)))
    = None ->
  let r := _gss_import_export_name mechs b name_type w in
  major_status r = GSS_S_FAILURE /\
  output_name r = None /\
  calls (after r) =
    calls w ++ [import_name_call (gm_mech_oid m) (value b) name_type;
                release_name_call (gm_mech_oid m) n] /\
  live (after r) = live w.
Proof.
  intros Hrun Hget Himp Hans Hfail r. subst r.
  unfold _gss_import_export_name. rewrite Hrun.
  unfold import_parsed. rewrite Hget, Himp, Hans.
  change (negb (GSS_S_COMPLETE =? GSS_S_COMPLETE)) with false. cbv iota.
  match goal with |- context [_gss_create_name ?x ?w2] =>
    pose proof (create_name_calls x w2) as Hc;
    pose proof (create_name_none_live x w2 Hfail) as Hl;
    destruct (_gss_create_name x w2) as [[name|] w3]
  end; [discriminate Hfail|].
  cbn [fst snd] in Hc, Hl. cbn [mech_gives called calls live] in Hc, Hl.
  cbn [major_status output_name after mech_releases free called calls live].
  rewrite Hc, Hl, <- app_assoc, remove_first_head.
  repeat split; reflexivity.
Qed.

Lemma wrapping_failure_releases_the_mechanism_name_witness :
  let w := {| heap := [true; false]; live := []; calls := [] |} in
  let r := _gss_import_export_name [switch_of krb5_mech]
             {| value := krb5_token; beyond := zeroes |}
             GSS_C_NT_EXPORT_NAME w in
  major_status r = GSS_S_FAILURE /\
  output_name r = None /\
  calls (after r) =
    [import_name_call krb5_oid krb5_token GSS_C_NT_EXPORT_NAME;
     release_name_call krb5_oid 7] /\
  live (after r) = [].
Proof.
  exact (wrapping_failure_releases_the_mechanism_name
           [switch_of krb5_mech]
           {| value := krb5_token; beyond := zeroes |}
           GSS_C_NT_EXPORT_NAME
           {| heap := [true; false]; live := []; calls := [] |}
           {| p := 19; len := 3; t := 3;
              loads := [18; 17; 16; 15; 5; 5; 4; 3; 2; 1; 0] |}
           {| composite := false; mech_oid_length := 9;
              mech_oid_elements := 6; rest := 19; rest_length := 3 |}
           krb5_mech (fun _ _ => (GSS_S_COMPLETE, 0, 7)) 0 7
           ltac:(vm_compute; reflexivity)
           ltac:(vm_compute; reflexivity)
           eq_refl eq_refl
           ltac:(vm_compute; reflexivity)).
Defined.

(** ** The walk over the mechanisms *)

Lemma never_fails_same_heap w w' :
  heap w' = heap w -> never_fails w -> never_fails w'.
Proof. unfold never_fails. intros ->. auto. Qed.

(** Lines 276-302 when the allocation succeeds and the mechanism has an
    import-name operation; [k] is the rest of the loop. *)
Lemma attempt_runs (k : _gss_name -> OM_uint32 -> world -> walk)
    m name w import major minor2 gmn :
  never_fails w ->
  gm_import_name (gm_mech m) = Some import ->
  import (bytes_of name) (gn_type name) = (major, minor2, gmn) ->
  exists w',
    never_fails w' /\
    live w' =
      (if major =? GSS_S_COMPLETE
       then [res_mech_name (gm_mech_oid (gm_mech m)) gmn; res_mn]
       else []) ++ live w /\
    match alloc res_mn w with
    | (false, w1) => bailed GSS_S_FAILURE ENOMEM name w1
    | (true, w1) =>
        match gm_import_name (gm_mech m) with
        | None => wild
        | Some import =>
            let '(major, minor2, gmn) :=
              import (bytes_of name) (gn_type name) in
            let w2 := called (import_name_call (gm_mech_oid (gm_mech m))
                                (bytes_of name) (gn_type name)) w1 in
            if negb (major =? GSS_S_COMPLETE) then
              k name minor2 (free res_mn (_gss_mg_error (gm_mech m) minor2 w2))
            else
              k {| gn_type := gn_type name; gn_value := gn_value name;
                   gn_mn := gn_mn name ++
                            [{| gmn_mech := gm_mech m;
                                gmn_mech_oid := gm_switch_oid m;
                                gmn_name := gmn |}] |}
                minor2 (mech_gives (gm_mech m) gmn w2)
        end
    end =
    (if major =? GSS_S_COMPLETE
     then k {| gn_type := gn_type name; gn_value := gn_value name;
               gn_mn := gn_mn name ++
                        [{| gmn_mech := gm_mech m;
                            gmn_mech_oid := gm_switch_oid m;
                            gmn_name := gmn |}] |} minor2 w'
     else k name minor2 w').
Proof.
  intros Hw Himp Hans.
  destruct (alloc_never_fails res_mn w Hw) as (w1 & Ea & Hw1 & Hl1 & Hc1).
  rewrite Ea, Himp, Hans.
  destruct (major =? GSS_S_COMPLETE); cbn [negb].
  - eexists. split; [|split; [|reflexivity]].
    + apply (never_fails_same_heap w1); [reflexivity | exact Hw1].
    + cbn [live mech_gives called app]. rewrite Hl1. reflexivity.
  - eexists. split; [|split; [|reflexivity]].
    + apply (never_fails_same_heap w1); [reflexivity | exact Hw1].
    + cbn [live free _gss_mg_error called app]. rewrite Hl1.
      apply remove_first_head.
Qed.

(** Lines 262-303 when no allocation fails and every mechanism the loop
    gets to has an import-name operation: the loop runs to the end of the
    list, and the names it appends are those of the eligible mechanisms
    whose import answered Complete, in the order of the list. *)
Lemma walk_mechs_walks GM nt v ty ms :
  forall name minor w,
    bytes_of name = v -> gn_type name = ty ->
    never_fails w ->
    (forall m, In m ms -> eligible GM nt m = true ->
               gm_import_name (gm_mech m) <> None) ->
    exists minor' w',
      walk_mechs GM nt ms name minor w =
        walked {| gn_type := ty; gn_value := gn_value name;
                  gn_mn := gn_mn name ++
                    map (mechanism_name_of v ty)
                      (filter (fun m => eligible GM nt m && imports v ty m)
                              ms) |}
               minor' w' /\
      never_fails w' /\
      live w' =
        flat_map held_by
          (rev (map (mechanism_name_of v ty)
                  (filter (fun m => eligible GM nt m && imports v ty m) ms)))
        ++ live w.
Proof.
  induction ms as [|m ms IH]; intros name minor w Hv Hty Hw Hcap.
  - exists minor, w. cbn. rewrite app_nil_r, <- Hty. destruct name; auto.
  - assert (Hcap' : forall m', In m' ms -> eligible GM nt m' = true ->
                               gm_import_name (gm_mech m') <> None)
      by (intros m' Hin; apply Hcap; right; exact Hin).
    specialize (Hcap m (or_introl eq_refl)).
    cbn [filter].
    destruct (eligible GM nt m) eqn:Hel; cbn [andb].
    + (* the loop body gets to the import *)
      destruct (gm_import_name (gm_mech m)) as [import|] eqn:Himp;
        [|exfalso; apply Hcap; reflexivity].
      destruct (import (bytes_of name) (gn_type name))
        as [[major minor2] gmn] eqn:Hans.
      destruct (attempt_runs (walk_mechs GM nt ms) m name w import
                  major minor2 gmn Hw Himp Hans) as (w' & Hw' & Hl' & E).
      rewrite Himp in E.
      assert (Hgo :
        walk_mechs GM nt (m :: ms) name minor w =
        (if major =? GSS_S_COMPLETE
         then walk_mechs GM nt ms
                {| gn_type := gn_type name; gn_value := gn_value name;
                   gn_mn := gn_mn name ++
                            [{| gmn_mech := gm_mech m;
                                gmn_mech_oid := gm_switch_oid m;
                                gmn_name := gmn |}] |} minor2 w'
         else walk_mechs GM nt ms name minor2 w')).
      { rewrite <- E. cbn [walk_mechs]. unfold eligible in Hel.
        destruct (negb (Z.land (gm_flags (gm_mech m)) GM =? 0));
          [discriminate Hel|].
        rewrite Himp.
        destruct nt as [nt0|]; [|reflexivity].
        cbn [gss_test_oid_set_member] in Hel |- *.
        destruct (GSS_ERROR GSS_S_COMPLETE
                  || ((if existsb (oid_eqb nt0) (gm_name_types m)
                       then 1 else 0) =? 0));
          [discriminate Hel | reflexivity]. }
      rewrite Hgo. rewrite Hv, Hty in Hans.
      assert (Hi : imports v ty m = (major =? GSS_S_COMPLETE))
        by (unfold imports; rewrite Himp, Hans; reflexivity).
      assert (Hmn : mechanism_name_of v ty m =
                    {| gmn_mech := gm_mech m; gmn_mech_oid := gm_switch_oid m;
                       gmn_name := gmn |})
        by (unfold mechanism_name_of; rewrite Himp, Hans; reflexivity).
      rewrite Hi.
      destruct (major =? GSS_S_COMPLETE).
      * destruct (IH {| gn_type := gn_type name; gn_value := gn_value name;
                        gn_mn := gn_mn name ++
                                 [{| gmn_mech := gm_mech m;
                                     gmn_mech_oid := gm_switch_oid m;
                                     gmn_name := gmn |}] |} minor2 w'
                    Hv Hty Hw' Hcap')
          as (minor' & w'' & Ew & Hw'' & Hl'').
        cbn [gn_type gn_value gn_mn] in Ew.
        exists minor', w''. split; [|split; [exact Hw''|]].
        -- rewrite Ew. cbn [map]. rewrite <- app_assoc, Hmn. reflexivity.
        -- rewrite Hl'', Hl'. cbn [map rev].
           rewrite flat_map_app, Hmn. cbn [flat_map held_by gmn_mech gmn_name].
           rewrite <- !app_assoc. reflexivity.
      * destruct (IH name minor2 w' Hv Hty Hw' Hcap')
          as (minor' & w'' & Ew & Hw'' & Hl'').
        exists minor', w''. split; [exact Ew|]. split; [exact Hw''|].
        rewrite Hl'', Hl'. reflexivity.
    + (* one of the two [continue]s *)
      assert (Hgo : exists minor1,
        walk_mechs GM nt (m :: ms) name minor w =
        walk_mechs GM nt ms name minor1 w).
      { cbn [walk_mechs]. unfold eligible in Hel.
        destruct (negb (Z.land (gm_flags (gm_mech m)) GM =? 0));
          [exists minor; reflexivity|].
        destruct nt as [nt0|]; [|discriminate Hel].
        cbn [gss_test_oid_set_member] in Hel |- *.
        destruct (GSS_ERROR GSS_S_COMPLETE
                  || ((if existsb (oid_eqb nt0) (gm_name_types m)
                       then 1 else 0) =? 0));
          [exists 0; reflexivity | discriminate Hel]. }
      destruct Hgo as [minor1 Hgo].
      rewrite Hgo.
      apply (IH name minor1 w Hv Hty Hw Hcap').
Qed.

Lemma filter_andb {A} (f g : A -> bool) l :
  filter (fun x => f x && g x) l = filter g (filter f l).
Proof.
  induction l as [|x l IH]; [reflexivity|].
  cbn [filter]. destruct (f x); cbn [andb filter]; rewrite IH; reflexivity.
Qed.

Lemma filter_all {A} (g : A -> bool) l :
  Forall (fun x => g x = true) l -> filter g l = l.
Proof.
  induction 1 as [|x l Hx _ IH]; [reflexivity|].
  cbn [filter]. rewrite Hx, IH. reflexivity.
Qed.

Lemma filter_none {A} (g : A -> bool) l :
  Forall (fun x => g x = false) l -> filter g l = [].
Proof.
  induction 1 as [|x l Hx _ IH]; [reflexivity|].
  cbn [filter]. rewrite Hx. exact IH.
Qed.

(** Releasing a name that holds no mechanism name frees what the prologue,
    lines 235-255, allocated. *)
Lemma release_empty_name nt v w l :
  live w = res_value :: match nt with
                        | Some _ => res_type :: res_name :: l
                        | None => res_name :: l
                        end ->
  live (gss_release_name {| gn_type := nt; gn_value := Some v; gn_mn := [] |} w)
  = l.
Proof.
  intros Hl. unfold gss_release_name.
  cbn [gn_mn gn_value gn_type release_mechanism_names].
  destruct nt; cbn [free live]; rewrite Hl; reflexivity.
Qed.

(** Lines 234-322 when no allocation fails and every mechanism the loop
    gets to has an import-name operation. *)
Lemma import_generic_runs mechs GM b nt w :
  never_fails w ->
  (forall m, In m mechs -> eligible GM nt m = true ->
             gm_import_name (gm_mech m) <> None) ->
  exists minor w4,
    let name3 :=
      {| gn_type := nt; gn_value := Some (value b);
         gn_mn := map (mechanism_name_of (value b) nt)
                    (filter (fun m => eligible GM nt m
                               && imports (value b) nt m) mechs) |} in
    live w4 =
      flat_map held_by (rev (gn_mn name3)) ++
      res_value :: match nt with
                   | Some _ => res_type :: res_name :: live w
                   | None => res_name :: live w
                   end /\
    import_generic mechs GM b nt w =
      Some (match gn_mn name3 with
            | [] => out GSS_S_NAME_NOT_MN 0 name3 w4
            | _ :: _ =>
                {| major_status := GSS_S_COMPLETE; minor_status := Some minor;
                   output_name := Some name3; after := w4 |}
            end).
Proof.
  intros Hw Hcap. unfold import_generic, _gss_create_name.
  destruct (alloc_never_fails res_name w Hw) as (w1 & E1 & Hw1 & Hl1 & _).
  rewrite E1.
  assert (Hty : exists w2,
    never_fails w2 /\
    live w2 = match nt with
              | Some _ => res_type :: res_name :: live w
              | None => res_name :: live w
              end /\
    match nt with
    | Some nt0 => _gss_intern_oid nt0 w1
    | None => (GSS_S_COMPLETE, 0, None, w1)
    end = (GSS_S_COMPLETE, 0, nt, w2)).
  { destruct nt as [nt0|].
    - unfold _gss_intern_oid.
      destruct (alloc_never_fails res_type w1 Hw1) as (w2 & E2 & Hw2 & Hl2 & _).
      rewrite E2. exists w2. rewrite Hl2, Hl1. auto.
    - exists w1. rewrite Hl1. auto. }
  destruct Hty as (w2 & Hw2 & Hl2 & ->).
  change (negb (GSS_S_COMPLETE =? 0)) with false. cbv iota.
  unfold _gss_copy_buffer.
  destruct (alloc_never_fails res_value w2 Hw2) as (w3 & E3 & Hw3 & Hl3 & _).
  rewrite E3. change (negb (GSS_S_COMPLETE =? 0)) with false. cbv iota.
  cbn [gn_mn gn_value].
  destruct (walk_mechs_walks GM nt (value b) nt mechs
              {| gn_type := nt; gn_value := Some (value b); gn_mn := [] |}
              0 w3 eq_refl eq_refl Hw3 Hcap)
    as (minor & w4 & Ew & Hw4 & Hl4).
  rewrite Ew. cbn [gn_mn gn_value app].
  exists minor, w4. cbv zeta. cbn [gn_mn]. split.
  - rewrite Hl4, Hl3, Hl2. reflexivity.
  - destruct (map _ _); reflexivity.
Qed.

(** ** The generic path: claims *)

(** C3.  A name type that is not an exported-name type, no allocation
    failing, and the eligible mechanisms, in registration order, being [l1],
    then [bad], then [l2], where the import of [bad] fails and every other
    one succeeds.  The failure aborts nothing: a name the call returns holds
    exactly the mechanism names of [l1 ++ l2], in that order, one fewer than
    there are eligible mechanisms; and the call does return a name, with
    Complete, as soon as [l1 ++ l2] is not empty. *)
Theorem one_failing_mechanism_is_skipped mechs GM b nt w l1 bad l2 :
  gss_oid_equal nt GSS_C_NT_EXPORT_NAME = false ->
  gss_oid_equal nt GSS_C_NT_COMPOSITE_EXPORT = false ->
  never_fails w ->
  filter (eligible GM nt) mechs = l1 ++ bad :: l2 ->
  Forall (fun m => imports (value b) nt m = true) (l1 ++ l2) ->
  (exists import, gm_import_name (gm_mech bad) = Some import /\
                  fst (fst (import (value b) nt)) <> GSS_S_COMPLETE) ->
  exists r,
    gss_import_name mechs GM (Some b) nt true w = Some r /\
    (forall name, output_name r = Some name ->
       gn_mn name = map (mechanism_name_of (value b) nt) (l1 ++ l2) /\
       S (List.length (gn_mn name))
       = List.length (filter (eligible GM nt) mechs)) /\
    (l1 ++ l2 <> [] ->
     major_status r = GSS_S_COMPLETE /\ output_name r <> None).
Proof.
  intros Hexp Hcomp Hw Hel Hgood (import & Himp & Hbad).
  assert (Hbad' : imports (value b) nt bad = false).
  { unfold imports. rewrite Himp. apply Z.eqb_neq. exact Hbad. }
  assert (Hwon : filter (fun m => eligible GM nt m && imports (value b) nt m)
                   mechs = l1 ++ l2).
  { rewrite filter_andb, Hel, filter_app. cbn [filter]. rewrite Hbad'.
    apply Forall_app in Hgood. destruct Hgood as [H1 H2].
    rewrite (filter_all _ l1 H1), (filter_all _ l2 H2). reflexivity. }
  assert (Hcap : forall m, In m mechs -> eligible GM nt m = true ->
                           gm_import_name (gm_mech m) <> None).
  { intros m Hin He.
    assert (Hm : In m (l1 ++ bad :: l2))
      by (rewrite <- Hel; apply filter_In; split; assumption).
    apply in_app_or in Hm. destruct Hm as [Hm|[<-|Hm]].
    - rewrite Forall_forall in Hgood.
      specialize (Hgood m (in_or_app _ _ _ (or_introl Hm))).
      unfold imports in Hgood.
      destruct (gm_import_name (gm_mech m)); [discriminate | discriminate Hgood].
    - rewrite Himp. discriminate.
    - rewrite Forall_forall in Hgood.
      specialize (Hgood m (in_or_app _ _ _ (or_intror Hm))).
      unfold imports in Hgood.
      destruct (gm_import_name (gm_mech m)); [discriminate | discriminate Hgood]. }
  destruct (import_generic_runs mechs GM b nt w Hw Hcap)
    as (minor & w4 & _ & Erun).
  cbv zeta in Erun. cbn [gn_mn] in Erun. rewrite Hwon in Erun.
  unfold gss_import_name. cbn [negb]. rewrite Hexp, Hcomp. cbn [orb].
  rewrite Erun. eexists. split; [reflexivity|].
  destruct (l1 ++ l2) as [|m ms] eqn:El; cbn [map].
  - split.
    + intros name E. discriminate E.
    + intros Hne. contradiction.
  - cbn [output_name major_status]. split.
    + intros name E. injection E as <-. cbn [gn_mn]. split; [reflexivity|].
      rewrite Hel, length_app. cbn [List.length].
      rewrite length_map.
      change (S (List.length ms)) with (List.length (m :: ms)).
      rewrite <- El, length_app. lia.
    + intros _. split; [reflexivity | discriminate].
Qed.

(** C4.  A name type that is not an exported-name type, no allocation
    failing, and no eligible mechanism importing the name: the call answers
    NameNotMN, the output name is the null name, and everything the call
    allocated (the name, its copy of the value, its interned type) has been
    released. *)
Theorem no_mechanism_name_is_name_not_mn mechs GM b nt w :
  gss_oid_equal nt GSS_C_NT_EXPORT_NAME = false ->
  gss_oid_equal nt GSS_C_NT_COMPOSITE_EXPORT = false ->
  never_fails w ->
  (forall m, In m mechs -> eligible GM nt m = true ->
     exists import, gm_import_name (gm_mech m) = Some import /\
                    fst (fst (import (value b) nt)) <> GSS_S_COMPLETE) ->
  exists r,
    gss_import_name mechs GM (Some b) nt true w = Some r /\
    major_status r = GSS_S_NAME_NOT_MN /\
    output_name r = None /\
    live (after r) = live w.
Proof.
  intros Hexp Hcomp Hw Hnone.
  assert (Hwon : filter (fun m => eligible GM nt m && imports (value b) nt m)
                   mechs = []).
  { apply filter_none. apply Forall_forall. intros m Hin.
    destruct (eligible GM nt m) eqn:He; [|reflexivity].
    destruct (Hnone m Hin He) as (import & Himp & Hbad).
    unfold imports. rewrite Himp. apply Z.eqb_neq. exact Hbad. }
  assert (Hcap : forall m, In m mechs -> eligible GM nt m = true ->
                           gm_import_name (gm_mech m) <> None).
  { intros m Hin He. destruct (Hnone m Hin He) as (import & Himp & _).
    rewrite Himp. discriminate. }
  destruct (import_generic_runs mechs GM b nt w Hw Hcap)
    as (minor & w4 & Hl4 & Erun).
  cbv zeta in Hl4, Erun. cbn [gn_mn] in Hl4, Erun.
  rewrite Hwon in Hl4, Erun. cbn [map rev flat_map app] in Hl4, Erun.
  unfold gss_import_name. cbn [negb]. rewrite Hexp, Hcomp. cbn [orb].
  rewrite Erun. eexists. split; [reflexivity|].
  cbn [out major_status output_name after].
  split; [reflexivity|]. split; [reflexivity|].
  apply release_empty_name. exact Hl4.
Qed.

Lemma one_failing_mechanism_is_skipped_witness :
  exists r,
    gss_import_name
      [switch_of krb5_mech; switch_of ntlm_mech; switch_of other_mech] 2
      (Some {| value := [102; 111; 111]; beyond := zeroes |})
      (Some user_name_type) true empty_world = Some r /\
    major_status r = GSS_S_COMPLETE /\
    (forall name, output_name r = Some name ->
       map gmn_mech (gn_mn name) = [krb5_mech; other_mech]).
Proof.
  destruct (one_failing_mechanism_is_skipped
              [switch_of krb5_mech; switch_of ntlm_mech; switch_of other_mech]
              2 {| value := [102; 111; 111]; beyond := zeroes |}
              (Some user_name_type) empty_world
              [switch_of krb5_mech] (switch_of ntlm_mech)
              [switch_of other_mech])
    as (r & E & Hnames & Hreturned).
  - vm_compute. reflexivity.
  - vm_compute. reflexivity.
  - apply Forall_nil.
  - vm_compute. reflexivity.
  - repeat (apply Forall_cons; [vm_compute; reflexivity|]). apply Forall_nil.
  - exists (fun _ _ => (GSS_S_BAD_NAME, 3, 0)).
    split; [reflexivity | vm_compute; discriminate].
  - exists r. split; [exact E|]. split.
    + apply Hreturned. discriminate.
    + intros name Hout. destruct (Hnames name Hout) as [-> _]. reflexivity.
Defined.

Lemma no_mechanism_name_is_name_not_mn_witness :
  exists r,
    gss_import_name [switch_of ntlm_mech; switch_of krb5_mech_refusing] 2
      (Some {| value := [102; 111; 111]; beyond := zeroes |})
      (Some user_name_type) true empty_world = Some r /\
    major_status r = GSS_S_NAME_NOT_MN /\
    output_name r = None /\
    live (after r) = [].
Proof.
  apply (no_mechanism_name_is_name_not_mn
           [switch_of ntlm_mech; switch_of krb5_mech_refusing] 2
           {| value := [102; 111; 111]; beyond := zeroes |}
           (Some user_name_type) empty_world).
  - vm_compute. reflexivity.
  - vm_compute. reflexivity.
  - apply Forall_nil.
  - intros m [<-|[<-|[]]] _; eexists; (split; [reflexivity|]);
      vm_compute; discriminate.
Defined.

(** * Further properties of the parser *)

(** ** The only status the parser returns *)

Lemma returns_only_ret {A} st (a : A) : returns_only st (ret a).
Proof. intros b s s' st' E. discriminate E. Qed.

Lemma returns_only_fail {A} st : returns_only st (@fail A st).
Proof. intros b s s' st' E. injection E as _ <-. reflexivity. Qed.

Lemma returns_only_return_if st c : returns_only st (return_if c st).
Proof. destruct c; [apply returns_only_fail | apply returns_only_ret]. Qed.

Lemma returns_only_deref st k : returns_only st (deref k).
Proof. intros b s s' st' E. discriminate E. Qed.

Lemma returns_only_p_add st k : returns_only st (p_add k).
Proof. intros b s s' st' E. discriminate E. Qed.

Lemma returns_only_len_sub st k : returns_only st (len_sub k).
Proof. intros b s s' st' E. discriminate E. Qed.

Lemma returns_only_t_set st k : returns_only st (t_set k).
Proof. intros b s s' st' E. discriminate E. Qed.

Lemma returns_only_get_p st : returns_only st get_p.
Proof. intros b s s' st' E. discriminate E. Qed.

Lemma returns_only_get_len st : returns_only st get_len.
Proof. intros b s s' st' E. discriminate E. Qed.

Lemma returns_only_get_t st : returns_only st get_t.
Proof. intros b s s' st' E. discriminate E. Qed.

Lemma returns_only_bind {A B} st (m : M A) (k : A -> M B) :
  returns_only st m -> (forall a, returns_only st (k a)) ->
  returns_only st (bind m k).
Proof.
  intros Hm Hk b s s' st' E. unfold bind in E.
  destruct (m b s) as [s1 [a|st1]] eqn:Em.
  - exact (Hk a b s1 s' st' E).
  - injection E as _ <-. exact (Hm b s s1 st1 Em).
Qed.

Lemma returns_only_if {A} st (c : bool) (m1 m2 : M A) :
  returns_only st m1 -> returns_only st m2 ->
  returns_only st (if c then m1 else m2).
Proof. destruct c; auto. Qed.

Create HintDb statuses.
#[local] Hint Resolve returns_only_ret returns_only_fail returns_only_return_if
  returns_only_deref returns_only_p_add returns_only_len_sub
  returns_only_t_set returns_only_get_p returns_only_get_len
  returns_only_get_t : statuses.

Ltac statuses :=
  repeat first
    [ apply returns_only_bind; [|intro]
    | apply returns_only_if
    | solve [auto with statuses] ].

Lemma returns_only_der_length_loop st n :
  forall acc, returns_only st (der_length_loop n acc).
Proof.
  induction n as [|n IH]; intros acc; cbn [der_length_loop]; statuses.
Qed.
#[local] Hint Resolve returns_only_der_length_loop : statuses.

Lemma returns_only_parse_export_name :
  returns_only GSS_S_BAD_NAME parse_export_name.
Proof.
  unfold parse_export_name, tok_id, mech_oid_field, name_len. statuses.
Qed.

(** ** How each part of the parser runs *)

(** Lines 53-67, from the entry of the function. *)
Lemma tok_id_from_entry b :
  (to_size_t (length b) < 2 /\
   tok_id b (entry b) = (entry b, Return GSS_S_BAD_NAME)) \/
  (2 <= to_size_t (length b) /\
   exists s, tok_id b (entry b) = (s, Return GSS_S_BAD_NAME) /\
             (loads s = [0] \/ loads s = [1; 0])) \/
  (2 <= to_size_t (length b) /\
   exists c : bool,
     load b 0 = 4 /\ load b 1 = (if c then 2 else 1) /\
     tok_id b (entry b) =
       ({| p := 2; len := to_size_t (length b - 2); t := 0;
           loads := [1; 0] |}, Val c)).
Proof.
  unfold tok_id, entry. run.
  destruct (Z.ltb_spec (to_size_t (length b)) 2) as [Hlt|Hge].
  { left. split; [exact Hlt | reflexivity]. }
  right. rewrite return_if_false. run. change (0 + 0) with 0.
  destruct (Z.eqb_spec (load b 0) 4) as [H0|H0]; cbn [negb].
  2:{ left. split; [exact Hge|]. eexists. split; [reflexivity|].
      left. reflexivity. }
  rewrite return_if_false. run. change (0 + 1) with 1.
  destruct (Z.eqb_spec (load b 1) 1) as [H1|H1].
  { right. split; [exact Hge|]. exists false.
    split; [exact H0|]. split; [exact H1|].
    do 3 run. cbn [ret]. rewrite to_size_t_sub_l. reflexivity. }
  destruct (Z.eqb_spec (load b 1) 2) as [H2|H2].
  { right. split; [exact Hge|]. exists true.
    split; [exact H0|]. split; [exact H2|].
    do 3 run. cbn [ret]. rewrite to_size_t_sub_l. reflexivity. }
  left. split; [exact Hge|]. eexists. split; [reflexivity|].
  right. reflexivity.
Qed.

Lemma to_size_t_length b : 2 <= to_size_t (length b) -> 2 <= length b.
Proof.
  intros H. unfold length in *.
  destruct (Z.lt_ge_cases (Z.of_nat (List.length (value b))) 2) as [Hlt|Hge];
    [|exact Hge].
  rewrite to_size_t_small in H by lia. exact H.
Qed.

Lemma high_bit_clear x : 0 <= x < 128 -> (Z.land x 128 =? 0) = true.
Proof.
  intros Hx. apply Z.eqb_eq. apply Z.bits_inj'. intros n Hn.
  rewrite Z.land_spec, Z.bits_0.
  destruct (Z.eq_dec n 7) as [->|Hn7].
  - replace (Z.testbit x 7) with false; [reflexivity|].
    symmetry. destruct (Z.eq_dec x 0) as [->|Hnz]; [reflexivity|].
    apply Z.bits_above_log2; [lia|].
    apply Z.log2_lt_pow2; lia.
  - replace (Z.testbit 128 n) with false; [apply andb_false_r|].
    symmetry. change 128 with (2 ^ 7). apply Z.pow2_bits_false. lia.
Qed.

(** Lines 91-125 when the length byte has its high bit clear. *)
Lemma short_form_run b s :
  2 <= len s < 2 ^ 64 ->
  load b (p s + 2) = 6 ->
  load b (p s + 3) < 128 ->
  mech_oid_field b s =
    ({| p := p s + 4; len := to_size_t (len s - 4);
        t := to_size_t (be16_at b (p s) - 2);
        loads := (p s + 3) :: (p s + 3) :: (p s + 2) :: (p s + 1) :: p s
                 :: loads s |},
     if load b (p s + 3) =? to_size_t (be16_at b (p s) - 2)
     then Val (load b (p s + 3)) else Return GSS_S_BAD_NAME).
Proof.
  intros Hl Htag Hlb.
  pose proof (load_range b (p s + 3)) as Hr.
  unfold mech_oid_field. run.
  replace (len s <? 2) with false by (symmetry; apply Z.ltb_ge; lia).
  rewrite return_if_false. do 6 run.
  rewrite !Z.add_0_r, Htag. change (negb (6 =? 6)) with false.
  rewrite return_if_false. do 5 run.
  rewrite !Z.add_0_r.
  replace (p s + 2 + 1) with (p s + 3) by lia.
  rewrite high_bit_clear by lia. cbn [negb].
  rewrite bind_assoc. run.
  do 4 (rewrite bind_assoc; run).
  rewrite (bind_val _ _ _ _ _ _ eq_refl). run.
  rewrite !Z.add_0_r.
  replace (p s + 2 + 1) with (p s + 3) by lia.
  rewrite Z.shiftl_mul_pow2 by lia. fold (be16_at b (p s)).
  replace (to_size_t (to_size_t (to_size_t (be16_at b (p s)) - 1) - 1))
    with (to_size_t (be16_at b (p s) - 2)) by size_arith.
  replace (to_size_t (to_size_t (to_size_t (len s - 2) - 1) - 1))
    with (to_size_t (len s - 4)) by size_arith.
  replace (p s + 3 + 1) with (p s + 4) by lia.
  unfold return_if.
  destruct (load b (p s + 3) =? to_size_t (be16_at b (p s) - 2));
    reflexivity.
Qed.

(** The loop of lines 112-117 loads the [digits] bytes at the cursor, and
    nothing else. *)
Lemma der_length_loop_loads (n : nat) :
  forall acc b s,
    Forall (fun off => In off (loads s) \/ p s <= off < p s + Z.of_nat n)
           (loads (fst (der_length_loop n acc b s))).
Proof.
  induction n as [|n IH]; intros acc b s.
  - cbn [der_length_loop ret fst]. apply Forall_forall. intros x Hx.
    left. exact Hx.
  - cbn [der_length_loop]. do 5 run.
    match goal with |- context [der_length_loop n ?a b ?s0] =>
      pose proof (IH a b s0) as H end.
    cbn [p loads] in H.
    eapply Forall_impl; [|exact H].
    intros x [[<-|Hx]|Hx]; [right; lia | left; exact Hx | right; lia].
Qed.

(** Line 92. *)
Lemma mech_oid_field_short_buffer b s :
  len s < 2 -> mech_oid_field b s = (s, Return GSS_S_BAD_NAME).
Proof.
  intros Hshort. unfold mech_oid_field. run.
  replace (len s <? 2) with true by (symmetry; apply Z.ltb_lt; lia).
  apply return_if_true.
Qed.

(** Line 102. *)
Lemma mech_oid_field_bad_tag b s :
  2 <= len s -> load b (p s + 2) <> 6 ->
  mech_oid_field b s =
    ({| p := p s + 2; len := to_size_t (len s - 2);
        t := to_size_t (Z.shiftl (load b (p s + 0)) 8 + load b (p s + 1));
        loads := (p s + 2 + 0) :: (p s + 1) :: (p s + 0) :: loads s |},
     Return GSS_S_BAD_NAME).
Proof.
  intros Hlong Htag. unfold mech_oid_field. run.
  replace (len s <? 2) with false by (symmetry; apply Z.ltb_ge; lia).
  rewrite return_if_false. do 6 run.
  rewrite !Z.add_0_r.
  replace (load b (p s + 2) =? 6) with false
    by (symmetry; apply Z.eqb_neq; exact Htag).
  apply return_if_true.
Qed.

(** Lines 91-125: which bytes are loaded, and where the cursor is when the
    OID header is accepted. *)
Lemma mech_oid_field_loads b s :
  0 <= len s < 2 ^ 64 ->
  let hi := p s + 4 + (if 128 <=? load b (p s + 3)
                       then load b (p s + 3) else 0) in
  Forall (fun off => In off (loads s) \/ p s <= off < hi)
         (loads (fst (mech_oid_field b s))) /\
  (forall s' n, mech_oid_field b s = (s', Val n) -> p s' = hi).
Proof.
  intros Hl hi.
  pose proof (load_range b (p s + 3)) as Hr.
  assert (Hhi : p s + 4 <= hi)
    by (subst hi; destruct (128 <=? load b (p s + 3)); lia).
  destruct (Z.lt_ge_cases (len s) 2) as [Hshort|Hlong].
  { (* line 92 *)
    pose proof (mech_oid_field_short_buffer b s Hshort) as E.
    rewrite E. split.
    - apply Forall_forall. intros x Hx. left. exact Hx.
    - intros s' n E'. discriminate E'. }
  destruct (Z.eq_dec (load b (p s + 2)) 6) as [Htag|Htag].
  2:{ (* line 102 *)
    pose proof (mech_oid_field_bad_tag b s Hlong Htag) as E.
    rewrite E. split.
    - cbn [fst loads]. repeat apply Forall_cons; try (right; lia).
      apply Forall_forall. intros x Hx. left. exact Hx.
    - intros s' n E'. discriminate E'. }
  destruct (Z.lt_ge_cases (load b (p s + 3)) 128) as [Hsf|Hlf].
  - (* short form *)
    rewrite (short_form_run b s ltac:(lia) Htag Hsf).
    assert (Ehi : hi = p s + 4).
    { subst hi. replace (128 <=? load b (p s + 3)) with false
        by (symmetry; apply Z.leb_gt; lia). lia. }
    split.
    + cbn [fst loads]. repeat apply Forall_cons; try (right; lia).
      apply Forall_forall. intros x Hx. left. exact Hx.
    + intros s' n E'.
      destruct (load b (p s + 3) =? to_size_t (be16_at b (p s) - 2));
        [|discriminate E'].
      destruct (val_inj _ _ _ _ E') as [<- _]. cbn [p]. lia.
  - (* long form *)
    assert (Ehi : hi = p s + 4 + load b (p s + 3)).
    { subst hi. replace (128 <=? load b (p s + 3)) with true
        by (symmetry; apply Z.leb_le; lia). lia. }
    unfold mech_oid_field. run.
    replace (len s <? 2) with false by (symmetry; apply Z.ltb_ge; lia).
    rewrite return_if_false. do 6 run.
    rewrite !Z.add_0_r, Htag. change (negb (6 =? 6)) with false.
    rewrite return_if_false. do 5 run.
    rewrite !Z.add_0_r.
    replace (p s + 2 + 1) with (p s + 3) by lia.
    rewrite high_bit_set by lia. cbn [negb].
    rewrite bind_assoc. run.
    do 4 (rewrite bind_assoc; run).
    rewrite !Z.add_0_r.
    replace (p s + 2 + 1) with (p s + 3) by lia.
    match goal with
      |- context [bind (der_length_loop ?digits 0) _ b ?s0] =>
        destruct (der_length_loop_run digits 0 b s0
          ltac:(lia) (to_size_t_range _) (to_size_t_range _))
          as (s1 & v & E & Hv & Hp & _ & _);
        pose proof (der_length_loop_loads digits 0 b s0) as Hloads
    end.
    rewrite E in Hloads. cbn [fst p loads] in Hp, Hloads.
    rewrite Z2Nat.id in Hp, Hloads by lia.
    rewrite (bind_val _ _ _ _ s1 v E). run.
    assert (Hfinal : forall r : step Z,
              Forall (fun off => In off (loads s) \/ p s <= off < hi)
                     (loads s1)).
    { intros _. eapply Forall_impl; [|exact Hloads].
      intros x [[<-|[<-|[<-|[<-|[<-|Hx]]]]]|Hx];
        try (right; lia); left; exact Hx. }
    unfold return_if.
    destruct (negb (v =? t s1)); cbn [bind fail ret fst].
    + split; [exact (Hfinal (Val 0))|]. intros s' n E'. discriminate E'.
    + split; [exact (Hfinal (Val 0))|].
      intros s' n E'. unfold bind, ret in E'.
      destruct (val_inj _ _ _ _ E') as [<- _]. lia.
Qed.

(** Lines 129-141 for a non-composite token, with the locals they leave. *)
Lemma name_len_full b s :
  0 <= t s < 2 ^ 32 -> 0 <= len s < 2 ^ 64 ->
  (len s < t s + 4 -> name_len false b s = (s, Return GSS_S_BAD_NAME)) /\
  (t s + 4 <= len s ->
   name_len false b s =
     ({| p := p s + t s + 4; len := len s - t s - 4;
         t := to_size_t (to_int (be32_at b (p s + t s)));
         loads := (p s + t s + 3) :: (p s + t s + 2) :: (p s + t s + 1)
                  :: (p s + t s) :: loads s |},
      if len s - t s - 4 =? to_size_t (to_int (be32_at b (p s + t s)))
      then Val tt else Return GSS_S_BAD_NAME)).
Proof.
  intros Ht Hl. unfold name_len. cbn [negb].
  split; intros Hc.
  - do 2 run.
    replace (len s <? to_size_t (t s + 4)) with true
      by (rewrite to_size_t_small by lia; symmetry; apply Z.ltb_lt; lia).
    apply return_if_true.
  - do 2 run.
    replace (len s <? to_size_t (t s + 4)) with false
      by (rewrite to_size_t_small by lia; symmetry; apply Z.ltb_ge; lia).
    rewrite return_if_false.
    do 11 run.
    rewrite Z.add_0_r, <- !Z.add_assoc. cbn [Z.add Pos.add].
    rewrite !Z.add_assoc, name_len_word.
    rewrite to_size_t_sub_l, (to_size_t_small (len s - t s - 4)) by lia.
    unfold return_if.
    destruct (len s - t s - 4 =? _); reflexivity.
Qed.


(** ** What the parser does on any buffer *)

Lemma in_bounds_iff b off : in_bounds b off = true <-> 0 <= off < length b.
Proof.
  unfold in_bounds. rewrite andb_true_iff, Z.leb_le, Z.ltb_lt. reflexivity.
Qed.

Lemma loads_inside_below b s hi :
  hi <= length b ->
  Forall (fun off => 0 <= off < hi) (loads s) -> loads_inside b s.
Proof.
  intros Hhi H. unfold loads_inside.
  eapply Forall_impl; [|exact H].
  intros x Hx. cbv beta in Hx. apply in_bounds_iff. lia.
Qed.

(** The run, once lines 53-67 have accepted the TOK_ID. *)
Lemma run_parser_after_tok_id b c :
  tok_id b (entry b) =
    ({| p := 2; len := to_size_t (length b - 2); t := 0; loads := [1; 0] |},
     Val c) ->
  run_parser b =
    bind mech_oid_field
      (fun n => e <- get_p ;; name_len c ;;; q <- get_p ;; l <- get_len ;;
         ret {| composite := c; mech_oid_length := n; mech_oid_elements := e;
                rest := q; rest_length := l |})
      b {| p := 2; len := to_size_t (length b - 2); t := 0;
           loads := [1; 0] |}.
Proof.
  intros E. unfold run_parser, parse_export_name.
  rewrite (bind_val _ _ _ _ _ _ E). reflexivity.
Qed.

Lemma short_buffer_core b :
  length b < 4 ->
  snd (run_parser b) = Return GSS_S_BAD_NAME /\
  loads_inside b (fst (run_parser b)).
Proof.
  intros Hlen.
  assert (Hnn : 0 <= length b) by (unfold length; lia).
  destruct (tok_id_from_entry b)
    as [[Hlt E]|[[Hge (s & E & Hs)]|[Hge (c & H0 & H1 & E)]]].
  - unfold run_parser, parse_export_name.
    rewrite (bind_return _ _ _ _ _ _ E). split; [reflexivity|].
    apply Forall_nil.
  - unfold run_parser, parse_export_name.
    rewrite (bind_return _ _ _ _ _ _ E). split; [reflexivity|].
    apply to_size_t_length in Hge. cbn [fst].
    apply (loads_inside_below b s 2 Hge).
    destruct Hs as [-> | ->]; repeat constructor; lia.
  - rewrite (run_parser_after_tok_id b c E).
    apply to_size_t_length in Hge.
    assert (Hshort : len {| p := 2; len := to_size_t (length b - 2); t := 0;
                            loads := [1; 0] |} < 2)
      by (cbn [len]; rewrite to_size_t_small by lia; lia).
    rewrite (bind_return _ _ _ _ _ _
               (mech_oid_field_short_buffer b _ Hshort)).
    split; [reflexivity|]. cbn [fst].
    apply (loads_inside_below b _ 2 Hge). repeat constructor; lia.
Qed.

(** X1.  A buffer of fewer than four bytes, the empty one included, is answered
    with BadName, and no load leaves the buffer. *)
Theorem buffer_shorter_than_four_is_bad_name b :
  length b < 4 ->
  snd (run_parser b) = Return GSS_S_BAD_NAME /\
  loads_inside b (fst (run_parser b)).
Proof. exact (short_buffer_core b). Qed.

Lemma buffer_shorter_than_four_is_bad_name_witness :
  snd (run_parser {| value := [4; 1; 0]; beyond := zeroes |})
    = Return GSS_S_BAD_NAME /\
  loads_inside {| value := [4; 1; 0]; beyond := zeroes |}
    (fst (run_parser {| value := [4; 1; 0]; beyond := zeroes |})).
Proof.
  apply (buffer_shorter_than_four_is_bad_name
           {| value := [4; 1; 0]; beyond := zeroes |}).
  vm_compute. reflexivity.
Defined.

(** X2.  The parser either accepts or answers BadName: no other status leaves
    lines 53-141. *)
Theorem parser_accepts_or_answers_bad_name b :
  (exists k, snd (run_parser b) = Val k) \/
  snd (run_parser b) = Return GSS_S_BAD_NAME.
Proof.
  destruct (run_parser b) as [s [k|st]] eqn:E.
  - left. exists k. reflexivity.
  - right. cbn [snd]. f_equal.
    exact (returns_only_parse_export_name b (entry b) s st E).
Qed.




(** ** Where the parser stays inside the buffer *)

Lemma parser_loads_inside b :
  length b < 2 ^ 64 ->
  der_header_end b <= length b ->
  loads_inside b (fst (run_parser b)).
Proof.
  intros Hlen Hend.
  assert (H6 : 6 <= der_header_end b).
  { unfold der_header_end. pose proof (load_range b 5).
    destruct (128 <=? load b 5); lia. }
  destruct (tok_id_from_entry b)
    as [[Hlt E]|[[Hge (s & E & Hs)]|[Hge (c & H0 & H1 & E)]]].
  - unfold run_parser, parse_export_name.
    rewrite (bind_return _ _ _ _ _ _ E). apply Forall_nil.
  - unfold run_parser, parse_export_name.
    rewrite (bind_return _ _ _ _ _ _ E). cbn [fst].
    apply (loads_inside_below b s 2 ltac:(lia)).
    destruct Hs as [-> | ->]; repeat constructor; lia.
  - rewrite (run_parser_after_tok_id b c E).
    rewrite to_size_t_small by lia.
    set (s1 := {| p := 2; len := length b - 2; t := 0; loads := [1; 0] |}).
    assert (Hl1 : 0 <= len s1 < 2 ^ 64) by (cbn [len s1]; lia).
    destruct (mech_oid_field_loads b s1 Hl1) as [Hloads Hp2].
    cbn [p s1 loads] in Hloads, Hp2.
    change (2 + 3) with 5 in Hloads, Hp2.
    replace (2 + 4 + (if 128 <=? load b 5 then load b 5 else 0))
      with (der_header_end b) in Hloads, Hp2 by (unfold der_header_end; lia).
    assert (Hin2 : Forall (fun off => 0 <= off < der_header_end b)
                     (loads (fst (mech_oid_field b s1)))).
    { eapply Forall_impl; [|exact Hloads].
      intros x [[<-|[<-|[]]]|Hx]; lia. }
    destruct (mech_oid_field b s1) as [s2 [n|st]] eqn:Eoid.
    2:{ rewrite (bind_return _ _ _ _ _ _ Eoid). cbn [fst] in *.
        exact (loads_inside_below b s2 _ Hend Hin2). }
    rewrite (bind_val _ _ _ _ _ _ Eoid). run. cbn [fst] in Hin2.
    specialize (Hp2 s2 n eq_refl).
    destruct (mech_oid_field_val b s1 s2 n Hl1 Eoid) as (Ht2 & Hn & _ & Hl2).
    cbn [p len s1] in Hl2.
    rewrite to_size_t_small in Hl2 by lia.
    destruct c.
    + (* composite: nothing more is loaded *)
      cbn [name_len negb]. do 3 run. cbn [ret fst].
      exact (loads_inside_below b s2 _ Hend Hin2).
    + destruct (name_len_full b s2 ltac:(lia) ltac:(lia)) as [Hshort Hlong].
      destruct (Z.lt_ge_cases (len s2) (t s2 + 4)) as [Hlt|Hge4].
      * rewrite (bind_return _ _ _ _ _ _ (Hshort Hlt)). cbn [fst].
        exact (loads_inside_below b s2 _ Hend Hin2).
      * assert (Hfour : Forall (fun off => in_bounds b off = true)
                          [p s2 + t s2 + 3; p s2 + t s2 + 2;
                           p s2 + t s2 + 1; p s2 + t s2]).
        { repeat constructor; apply in_bounds_iff; lia. }
        pose proof (loads_inside_below b s2 _ Hend Hin2) as Hold.
        pose proof (Hlong Hge4) as Enl.
        destruct (len s2 - t s2 - 4 =? _) in Enl.
        -- rewrite (bind_val _ _ _ _ _ _ Enl). do 2 run. cbn [ret fst loads].
           unfold loads_inside. cbn [loads].
           exact (proj2 (Forall_app _ _ _) (conj Hfour Hold)).
        -- rewrite (bind_return _ _ _ _ _ _ Enl).
           unfold loads_inside. cbn [fst loads].
           exact (proj2 (Forall_app _ _ _) (conj Hfour Hold)).
Qed.

(** X4.  When the buffer reaches to the end of the OID's DER header, every load
    the parser makes lies inside the buffer, whether it accepts or not. *)
Theorem header_inside_keeps_loads_inside b :
  length b < 2 ^ 64 ->
  der_header_end b <= length b ->
  loads_inside b (fst (run_parser b)).
Proof. exact (parser_loads_inside b). Qed.

Lemma header_inside_keeps_loads_inside_witness :
  loads_inside {| value := long_form_token ++ repeat 0 120; beyond := zeroes |}
    (fst (run_parser {| value := long_form_token ++ repeat 0 120;
                        beyond := zeroes |})).
Proof.
  apply (header_inside_keeps_loads_inside
           {| value := long_form_token ++ repeat 0 120; beyond := zeroes |}).
  - vm_compute. reflexivity.
  - vm_compute. discriminate.
Defined.

(** ** What the parser's answer depends on *)

Lemma load_same b b' off :
  value b' = value b -> in_bounds b off = true -> load b' off = load b off.
Proof.
  intros Hv Hin. unfold load.
  replace (length b') with (length b) by (unfold length; rewrite Hv; reflexivity).
  unfold in_bounds in Hin. rewrite Hin, Hv. reflexivity.
Qed.

Lemma sees_ret {A} (a : A) : sees_only_loads (ret a).
Proof. intros b b' s _ _. reflexivity. Qed.

Lemma sees_fail {A} st : sees_only_loads (@fail A st).
Proof. intros b b' s _ _. reflexivity. Qed.

Lemma sees_return_if c st : sees_only_loads (return_if c st).
Proof. destruct c; [apply sees_fail | apply sees_ret]. Qed.

Lemma sees_deref k : sees_only_loads (deref k).
Proof.
  intros b b' s Hv Hin. unfold deref in *. cbn [fst loads] in Hin.
  rewrite (load_same b b' (p s + k) Hv (Forall_inv Hin)). reflexivity.
Qed.

Lemma sees_p_add k : sees_only_loads (p_add k).
Proof. intros b b' s _ _. reflexivity. Qed.

Lemma sees_len_sub k : sees_only_loads (len_sub k).
Proof. intros b b' s _ _. reflexivity. Qed.

Lemma sees_t_set k : sees_only_loads (t_set k).
Proof. intros b b' s _ _. reflexivity. Qed.

Lemma sees_get_p : sees_only_loads get_p.
Proof. intros b b' s _ _. reflexivity. Qed.

Lemma sees_get_len : sees_only_loads get_len.
Proof. intros b b' s _ _. reflexivity. Qed.

Lemma sees_get_t : sees_only_loads get_t.
Proof. intros b b' s _ _. reflexivity. Qed.

Lemma sees_bind {A B} (m : M A) (k : A -> M B) :
  sees_only_loads m ->
  (forall a, sees_only_loads (k a)) -> (forall a, keeps_loads (k a)) ->
  sees_only_loads (bind m k).
Proof.
  intros Hm Hk Hkeep b b' s Hv Hin. unfold bind in *.
  destruct (m b s) as [s1 [a|st]] eqn:Em.
  - assert (Hin1 : Forall (fun off => in_bounds b off = true) (loads s1)).
    { apply Forall_forall. intros x Hx.
      rewrite Forall_forall in Hin. apply Hin.
      apply (Hkeep a b s1 x Hx). }
    rewrite (Hm b b' s Hv); rewrite Em; [|exact Hin1].
    apply (Hk a b b' s1 Hv Hin).
  - rewrite (Hm b b' s Hv); rewrite Em; [reflexivity | exact Hin].
Qed.

Lemma sees_if {A} (c : bool) (m1 m2 : M A) :
  sees_only_loads m1 -> sees_only_loads m2 ->
  sees_only_loads (if c then m1 else m2).
Proof. destruct c; auto. Qed.

Create HintDb sees.
#[local] Hint Resolve sees_ret sees_fail sees_return_if sees_deref sees_p_add
  sees_len_sub sees_t_set sees_get_p sees_get_len sees_get_t : sees.

Ltac sees :=
  repeat first
    [ apply sees_bind; [| intro | intro; keeps ]
    | apply sees_if
    | solve [auto with sees] ].

Lemma sees_der_length_loop n : forall acc, sees_only_loads (der_length_loop n acc).
Proof.
  induction n as [|n IH]; intros acc; cbn [der_length_loop]; sees.
Qed.
#[local] Hint Resolve sees_der_length_loop : sees.

Lemma sees_parse_export_name : sees_only_loads parse_export_name.
Proof.
  unfold parse_export_name, tok_id, mech_oid_field, name_len. sees.
Qed.

Lemma run_parser_same b b' :
  value b' = value b ->
  loads_inside b (fst (run_parser b)) ->
  run_parser b' = run_parser b.
Proof.
  intros Hv Hin. unfold run_parser.
  replace (entry b') with (entry b)
    by (unfold entry, length; rewrite Hv; reflexivity).
  exact (sees_parse_export_name b b' (entry b) Hv Hin).
Qed.

(** X5.  When the buffer reaches to the end of the OID's DER header, the parser's
    answer, and every local it leaves, is the same whatever memory holds
    outside the buffer. *)
Theorem header_inside_makes_memory_outside_irrelevant b b' :
  length b < 2 ^ 64 ->
  der_header_end b <= length b ->
  value b' = value b ->
  run_parser b' = run_parser b.
Proof.
  intros Hlen Hend Hv.
  exact (run_parser_same b b' Hv (parser_loads_inside b Hlen Hend)).
Qed.

Lemma header_inside_makes_memory_outside_irrelevant_witness :
  run_parser {| value := krb5_token; beyond := plain_name_after |}
  = run_parser {| value := krb5_token; beyond := zeroes |}.
Proof.
  apply (header_inside_makes_memory_outside_irrelevant
           {| value := krb5_token; beyond := zeroes |}
           {| value := krb5_token; beyond := plain_name_after |}).
  - vm_compute. reflexivity.
  - vm_compute. discriminate.
  - reflexivity.
Defined.

(** ** Tokens in the layout of RFC 2743 *)

(** A stretch of the buffer, seen through [view], is the bytes put there. *)
Lemma view_slice b (mid : list Z) :
  forall pre post,
    value b = pre ++ mid ++ post ->
    Forall is_byte mid ->
    view b (Z.of_nat (List.length pre)) (Z.of_nat (List.length mid)) = mid.
Proof.
  unfold view. rewrite Nat2Z.id.
  induction mid as [|x mid IH]; intros pre post Hv Hb; [reflexivity|].
  cbn [List.length seq map].
  inversion Hb as [|? ? Hx Hmid]; subst.
  f_equal.
  - rewrite Z.add_0_r. apply load_in_bounds; [|exact Hx].
    rewrite Hv, nth_error_app2 by lia. rewrite Nat.sub_diag. reflexivity.
  - rewrite <- seq_shift, map_map.
    specialize (IH (pre ++ [x]) post).
    rewrite <- app_assoc in IH. specialize (IH Hv Hmid).
    rewrite <- IH at 2. apply map_ext. intros i.
    f_equal. rewrite length_app. cbn [List.length]. lia.
Qed.

Lemma be16_bytes n : 0 <= n < 2 ^ 16 -> Forall is_byte (be16 n).
Proof.
  intros Hn. unfold be16, is_byte.
  repeat constructor; apply Z.mod_pos_bound; lia.
Qed.

Lemma be32_bytes n : Forall is_byte (be32 n).
Proof.
  unfold be32, is_byte. repeat constructor; apply Z.mod_pos_bound; lia.
Qed.

Lemma be16_value n :
  0 <= n < 2 ^ 16 -> (n / 2 ^ 8 mod 2 ^ 8) * 2 ^ 8 + n mod 2 ^ 8 = n.
Proof.
  intros Hn. change (2 ^ 8) with 256. change (2 ^ 16) with 65536 in Hn.
  Z.div_mod_to_equations. lia.
Qed.

Lemma be32_value n :
  0 <= n < 2 ^ 32 ->
  (n / 2 ^ 24 mod 2 ^ 8) * 2 ^ 24 + (n / 2 ^ 16 mod 2 ^ 8) * 2 ^ 16
  + (n / 2 ^ 8 mod 2 ^ 8) * 2 ^ 8 + n mod 2 ^ 8 = n.
Proof.
  intros Hn.
  change (2 ^ 8) with 256. change (2 ^ 16) with 65536.
  change (2 ^ 24) with 16777216. change (2 ^ 32) with 4294967296 in Hn.
  Z.div_mod_to_equations. lia.
Qed.

(** Lines 53-125 on a token that starts with a well-formed header. *)
Lemma token_header_run b (c : bool) oid after :
  value b = token_header (if c then 2 else 1) oid ++ oid ++ after ->
  (List.length oid < 128)%nat ->
  length b < 2 ^ 64 ->
  tok_id b (entry b) = (after_tok_id b, Val c) /\
  mech_oid_field b (after_tok_id b) =
    ({| p := 6; len := length b - 6; t := Z.of_nat (List.length oid);
        loads := [5; 5; 4; 3; 2; 1; 0] |},
     Val (Z.of_nat (List.length oid))).
Proof.
  intros Hv Hoid Hlen.
  set (n := Z.of_nat (List.length oid)) in *.
  assert (Hn : 0 <= n < 128) by (subst n; lia).
  assert (Hlen6 : 6 <= length b).
  { unfold length. rewrite Hv, length_app. cbn [token_header be16 app List.length].
    lia. }
  assert (H2 : load b 2 = (n + 2) / 2 ^ 8 mod 2 ^ 8).
  { apply (load_in_bounds b 2); [rewrite Hv; reflexivity|].
    apply Z.mod_pos_bound. lia. }
  assert (H3 : load b 3 = (n + 2) mod 2 ^ 8).
  { apply (load_in_bounds b 3); [rewrite Hv; reflexivity|].
    apply Z.mod_pos_bound. lia. }
  assert (H4 : load b 4 = 6)
    by (apply (load_in_bounds b 4); [rewrite Hv; reflexivity | lia]).
  assert (H5 : load b 5 = n)
    by (apply (load_in_bounds b 5); [rewrite Hv; reflexivity | lia]).
  assert (H16 : be16_at b 2 = n + 2).
  { unfold be16_at. change (2 + 1) with 3. rewrite H2, H3.
    apply be16_value. lia. }
  split.
  - apply tok_id_run; [exact Hlen|]. rewrite Hv. destruct c; reflexivity.
  - rewrite (short_form_run b (after_tok_id b));
      cbn [p len loads after_tok_id];
      change (2 + 2) with 4; change (2 + 3) with 5; change (2 + 1) with 3;
      change (2 + 4) with 6; try lia.
    rewrite H5, H16.
    replace (n + 2 - 2) with n by lia.
    rewrite (to_size_t_small n) by lia. rewrite Z.eqb_refl.
    replace (length b - 2 - 4) with (length b - 6) by lia.
    rewrite to_size_t_small by lia. reflexivity.
Qed.

Lemma composite_token_core oid suffix junk :
  (List.length oid < 128)%nat ->
  Z.of_nat (List.length suffix) < 2 ^ 63 ->
  Forall is_byte oid -> Forall is_byte suffix ->
  let b := {| value := composite_token_of oid suffix; beyond := junk |} in
  exists s k,
    run_parser b = (s, Val k) /\
    composite k = true /\
    mech_oid_of b k = oid /\
    payload_of b k = oid ++ suffix /\
    loads_inside b s.
Proof.
  intros Hoid Hsuf Hbo Hbs b.
  assert (Hv : value b = token_header 2 oid ++ oid ++ suffix) by reflexivity.
  assert (Hlenb : length b
                  = 6 + Z.of_nat (List.length oid)
                    + Z.of_nat (List.length suffix)).
  { unfold length. rewrite Hv, !length_app.
    cbn [token_header be16 app List.length]. lia. }
  destruct (token_header_run b true oid suffix Hv Hoid ltac:(lia))
    as [Etok Eoid].
  eexists. eexists. split.
  { unfold run_parser, parse_export_name.
    rewrite (bind_val _ _ _ _ _ _ Etok), (bind_val _ _ _ _ _ _ Eoid).
    reflexivity. }
  cbn [composite mech_oid_length mech_oid_elements rest rest_length p len].
  split; [reflexivity|]. split; [|split].
  - unfold mech_oid_of. cbn [mech_oid_elements mech_oid_length].
    apply (view_slice b oid (token_header 2 oid) suffix Hv Hbo).
  - unfold payload_of. cbn [rest rest_length].
    replace (length b - 6)
      with (Z.of_nat (List.length (oid ++ suffix)))
      by (rewrite length_app; lia).
    apply (view_slice b (oid ++ suffix) (token_header 2 oid) []).
    + rewrite app_nil_r, Hv. reflexivity.
    + apply Forall_app. split; assumption.
  - apply (loads_inside_below b _ 6 ltac:(lia)). cbn [loads].
    repeat constructor; lia.
Qed.

(** X6.  A composite token in the layout of RFC 2743, with an OID of fewer than
    128 bytes and any bytes after it, is accepted whatever memory holds
    outside the buffer: the mechanism OID is the one put in, and the
    remainder handed on starts at the OID content, not after it. *)
Theorem composite_token_of_parses oid suffix junk :
  (List.length oid < 128)%nat ->
  Z.of_nat (List.length suffix) < 2 ^ 63 ->
  Forall is_byte oid -> Forall is_byte suffix ->
  let b := {| value := composite_token_of oid suffix; beyond := junk |} in
  exists s k,
    run_parser b = (s, Val k) /\
    composite k = true /\
    mech_oid_of b k = oid /\
    payload_of b k = oid ++ suffix /\
    loads_inside b s.
Proof. exact (composite_token_core oid suffix junk). Qed.

Lemma composite_token_of_parses_witness :
  exists s k,
    run_parser {| value := composite_token_of krb5_oid [1; 2; 3];
                  beyond := zeroes |} = (s, Val k) /\
    composite k = true.
Proof.
  destruct (composite_token_of_parses krb5_oid [1; 2; 3] zeroes)
    as (s & k & E & Hc & _).
  - vm_compute. lia.
  - vm_compute. reflexivity.
  - repeat constructor; unfold is_byte; lia.
  - repeat constructor; unfold is_byte; lia.
  - exists s, k. split; assumption.
Defined.

Lemma view_four b off :
  view b off 4 = [load b off; load b (off + 1); load b (off + 2);
                  load b (off + 3)].
Proof.
  unfold view. change (Z.to_nat 4) with 4%nat. cbn [seq map].
  rewrite Z.add_0_r. reflexivity.
Qed.

Lemma four_inj (a0 a1 a2 a3 c0 c1 c2 c3 : Z) :
  [a0; a1; a2; a3] = [c0; c1; c2; c3] ->
  a0 = c0 /\ a1 = c1 /\ a2 = c2 /\ a3 = c3.
Proof. intros E. injection E as -> -> -> ->. auto. Qed.

Lemma plain_token_core oid name junk :
  (List.length oid < 128)%nat ->
  Z.of_nat (List.length name) < 2 ^ 31 ->
  Forall is_byte oid -> Forall is_byte name ->
  let b := {| value := plain_token oid name; beyond := junk |} in
  exists s k,
    run_parser b = (s, Val k) /\
    composite k = false /\
    mech_oid_of b k = oid /\
    payload_of b k = name /\
    loads_inside b s.
Proof.
  intros Hoid Hname Hbo Hbn b.
  set (n := Z.of_nat (List.length oid)).
  set (N := Z.of_nat (List.length name)).
  assert (Hv : value b = token_header 1 oid ++ oid ++ be32 N ++ name)
    by reflexivity.
  assert (Hlenb : length b = 6 + n + 4 + N).
  { unfold length. rewrite Hv, !length_app.
    cbn [token_header be16 be32 app List.length]. lia. }
  destruct (token_header_run b false oid (be32 N ++ name) Hv Hoid ltac:(lia))
    as [Etok Eoid]. fold n in Eoid.
  set (s2 := {| p := 6; len := length b - 6; t := n;
                loads := [5; 5; 4; 3; 2; 1; 0] |}) in *.
  (* NAME_LEN, as the buffer holds it *)
  assert (Hv' : value b = (token_header 1 oid ++ oid) ++ be32 N ++ name)
    by (rewrite Hv, app_assoc; reflexivity).
  assert (Hpre : Z.of_nat (List.length (token_header 1 oid ++ oid)) = 6 + n).
  { rewrite length_app. cbn [token_header be16 app List.length]. lia. }
  assert (Hword : view b (6 + n) 4 = be32 N).
  { rewrite <- Hpre.
    apply (view_slice b (be32 N) (token_header 1 oid ++ oid) name Hv').
    apply be32_bytes. }
  rewrite view_four in Hword. unfold be32 in Hword.
  destruct (four_inj _ _ _ _ _ _ _ _ Hword) as (W0 & W1 & W2 & W3).
  assert (HN : be32_at b (6 + n) = N).
  { unfold be32_at. rewrite W0, W1, W2, W3. apply be32_value. lia. }
  destruct (name_len_full b s2) as [_ Hlong];
    [cbn [t s2]; lia | cbn [len s2]; lia |].
  specialize (Hlong ltac:(cbn [t len s2]; lia)).
  cbn [p t len loads s2] in Hlong. rewrite HN in Hlong.
  rewrite name_len_value_small in Hlong by lia.
  replace (length b - 6 - n - 4 =? N) with true in Hlong
    by (symmetry; apply Z.eqb_eq; lia).
  eexists. eexists. split.
  { unfold run_parser, parse_export_name.
    rewrite (bind_val _ _ _ _ _ _ Etok), (bind_val _ _ _ _ _ _ Eoid). run.
    rewrite (bind_val _ _ _ _ _ _ Hlong). do 2 run. reflexivity. }
  cbn [composite mech_oid_length mech_oid_elements rest rest_length p len s2].
  split; [reflexivity|]. split; [|split].
  - unfold mech_oid_of. cbn [mech_oid_elements mech_oid_length].
    apply (view_slice b oid (token_header 1 oid) (be32 N ++ name) Hv Hbo).
  - unfold payload_of. cbn [rest rest_length].
    replace (length b - 6 - n - 4) with N by lia.
    replace (6 + n + 4)
      with (Z.of_nat (List.length ((token_header 1 oid ++ oid) ++ be32 N)))
      by (rewrite length_app; cbn [be32 List.length]; lia).
    apply (view_slice b name ((token_header 1 oid ++ oid) ++ be32 N) []).
    + rewrite app_nil_r, Hv', <- !app_assoc. reflexivity.
    + exact Hbn.
  - apply (loads_inside_below b _ (6 + n + 4) ltac:(lia)). cbn [loads].
    repeat constructor; lia.
Qed.

(** X7.  A plain token in the layout of RFC 2743, with an OID of fewer than 128
    bytes and a name of fewer than 2^31 bytes, is accepted whatever memory
    holds outside the buffer, and what the parser extracts is the OID and
    the name that were put in; no load leaves the buffer. *)
Theorem plain_token_parses_back oid name junk :
  (List.length oid < 128)%nat ->
  Z.of_nat (List.length name) < 2 ^ 31 ->
  Forall is_byte oid -> Forall is_byte name ->
  let b := {| value := plain_token oid name; beyond := junk |} in
  exists s k,
    run_parser b = (s, Val k) /\
    composite k = false /\
    mech_oid_of b k = oid /\
    payload_of b k = name /\
    loads_inside b s.
Proof. exact (plain_token_core oid name junk). Qed.

Lemma plain_token_parses_back_witness :
  exists s k,
    run_parser {| value := plain_token krb5_oid [102; 111; 111];
                  beyond := zeroes |} = (s, Val k) /\
    payload_of {| value := plain_token krb5_oid [102; 111; 111];
                  beyond := zeroes |} k = [102; 111; 111].
Proof.
  destruct (plain_token_parses_back krb5_oid [102; 111; 111] zeroes)
    as (s & k & E & _ & _ & Hp & _).
  - vm_compute. lia.
  - vm_compute. reflexivity.
  - repeat constructor; unfold is_byte; lia.
  - repeat constructor; unfold is_byte; lia.
  - exists s, k. split; assumption.
Defined.

(** * Further properties of [gss_import_name] *)

(** ** The walk over the mechanisms, whatever the allocator does *)

Lemma walk_mechs_keeps GM nt ms :
  forall name minor w, walk_keeps name (walk_mechs GM nt ms name minor w).
Proof.
  induction ms as [|m ms IH]; intros name minor w; cbn [walk_mechs].
  - cbn. split; [reflexivity|]. split; [reflexivity|].
    exists []. rewrite app_nil_r. reflexivity.
  - destruct (negb (Z.land (gm_flags (gm_mech m)) GM =? 0)); [apply IH|].
    destruct (match nt with
              | Some nt0 =>
                  let '(major, minor', present) :=
                    gss_test_oid_set_member nt0 (gm_name_types m) in
                  (GSS_ERROR major || (present =? 0), minor')
              | None => (false, minor)
              end) as [[|] minor1]; [apply IH|].
    destruct (alloc res_mn w) as [[|] w1]; [|cbn; auto].
    destruct (gm_import_name (gm_mech m)) as [import|]; [|exact I].
    destruct (import (bytes_of name) (gn_type name)) as [[major minor2] gmn].
    destruct (negb (major =? GSS_S_COMPLETE)); [apply IH|].
    match goal with |- walk_keeps _ (walk_mechs _ _ _ ?name' ?mi ?w') =>
      pose proof (IH name' mi w') as H;
      destruct (walk_mechs GM nt ms name' mi w') as [name'' ? ?| |]
    end; cbn in H |- *; [|exact H|exact I].
    destruct H as (Hty & Hv & more & Hmn).
    split; [exact Hty|]. split; [exact Hv|].
    eexists. rewrite Hmn, <- app_assoc. reflexivity.
Qed.

(** The loop over a list that is two lists in a row. *)
Lemma walk_mechs_app GM nt l1 l2 :
  forall name minor w,
    walk_mechs GM nt (l1 ++ l2) name minor w =
    match walk_mechs GM nt l1 name minor w with
    | walked name' minor' w' => walk_mechs GM nt l2 name' minor' w'
    | o => o
    end.
Proof.
  induction l1 as [|m l1 IH]; intros name minor w;
    cbn [app walk_mechs]; [reflexivity|].
  destruct (negb (Z.land (gm_flags (gm_mech m)) GM =? 0)); [apply IH|].
  destruct (match nt with
            | Some nt0 =>
                let '(major, minor', present) :=
                  gss_test_oid_set_member nt0 (gm_name_types m) in
                (GSS_ERROR major || (present =? 0), minor')
            | None => (false, minor)
            end) as [[|] minor1]; [apply IH|].
  destruct (alloc res_mn w) as [[|] w1]; [|reflexivity].
  destruct (gm_import_name (gm_mech m)) as [import|]; [|reflexivity].
  destruct (import (bytes_of name) (gn_type name)) as [[major minor2] gmn].
  destruct (negb (major =? GSS_S_COMPLETE)); apply IH.
Qed.

(** The loop body for a mechanism that gets past the two [continue]s. *)
Lemma walk_mechs_try GM nt m ms name minor w :
  eligible GM nt m = true ->
  walk_mechs GM nt (m :: ms) name minor w =
  match alloc res_mn w with
  | (false, w1) => bailed GSS_S_FAILURE ENOMEM name w1
  | (true, w1) =>
      match gm_import_name (gm_mech m) with
      | None => wild
      | Some import =>
          let '(major, minor2, gmn) :=
            import (bytes_of name) (gn_type name) in
          let w2 := called (import_name_call (gm_mech_oid (gm_mech m))
                              (bytes_of name) (gn_type name)) w1 in
          if negb (major =? GSS_S_COMPLETE) then
            walk_mechs GM nt ms name minor2
              (free res_mn (_gss_mg_error (gm_mech m) minor2 w2))
          else
            walk_mechs GM nt ms
              {| gn_type := gn_type name; gn_value := gn_value name;
                 gn_mn := gn_mn name ++
                          [{| gmn_mech := gm_mech m;
                              gmn_mech_oid := gm_switch_oid m;
                              gmn_name := gmn |}] |}
              minor2 (mech_gives (gm_mech m) gmn w2)
      end
  end.
Proof.
  intros Hel. cbn [walk_mechs]. unfold eligible in Hel.
  destruct (negb (Z.land (gm_flags (gm_mech m)) GM =? 0));
    [discriminate Hel|].
  destruct nt as [nt0|]; [|reflexivity].
  cbn [gss_test_oid_set_member] in Hel |- *.
  destruct (GSS_ERROR GSS_S_COMPLETE
            || ((if existsb (oid_eqb nt0) (gm_name_types m)
                 then 1 else 0) =? 0));
    [discriminate Hel | reflexivity].
Qed.

(** The loop body for a mechanism that one of the two [continue]s skips:
    nothing is allocated and nothing is called. *)
Lemma walk_mechs_skip GM nt m ms name minor w :
  eligible GM nt m = false ->
  exists minor1,
    walk_mechs GM nt (m :: ms) name minor w =
    walk_mechs GM nt ms name minor1 w.
Proof.
  intros Hel. cbn [walk_mechs]. unfold eligible in Hel.
  destruct (negb (Z.land (gm_flags (gm_mech m)) GM =? 0));
    [exists minor; reflexivity|].
  destruct nt as [nt0|]; [|discriminate Hel].
  cbn [gss_test_oid_set_member] in Hel |- *.
  destruct (GSS_ERROR GSS_S_COMPLETE
            || ((if existsb (oid_eqb nt0) (gm_name_types m)
                 then 1 else 0) =? 0));
    [exists 0; reflexivity | discriminate Hel].
Qed.

(** ** What the generic path can answer *)

Lemma import_generic_outcome mechs GM b nt w r :
  import_generic mechs GM b nt w = Some r ->
  (major_status r = GSS_S_COMPLETE \/ major_status r = GSS_S_FAILURE \/
   major_status r = GSS_S_NAME_NOT_MN) /\
  (major_status r = GSS_S_COMPLETE <-> output_name r <> None) /\
  (forall name, output_name r = Some name ->
     gn_mn name <> [] /\ gn_value name = Some (value b) /\
     gn_type name = nt).
Proof.
  assert (Hfail : forall r' : result,
    major_status r' = GSS_S_FAILURE \/ major_status r' = GSS_S_NAME_NOT_MN ->
    output_name r' = None ->
    (major_status r' = GSS_S_COMPLETE \/ major_status r' = GSS_S_FAILURE \/
     major_status r' = GSS_S_NAME_NOT_MN) /\
    (major_status r' = GSS_S_COMPLETE <-> output_name r' <> None) /\
    (forall name, output_name r' = Some name ->
       gn_mn name <> [] /\ gn_value name = Some (value b) /\
       gn_type name = nt)).
  { intros r' Hst Hout. split; [tauto|]. split; [split|].
    - intros E. destruct Hst as [H|H]; rewrite H in E; discriminate E.
    - intros Hne. contradiction.
    - intros name E. rewrite Hout in E. discriminate E. }
  unfold import_generic, _gss_create_name.
  destruct (alloc res_name w) as [[|] w1].
  2:{ intros E. injection E as <-. apply Hfail; [left|]; reflexivity. }
  assert (Hty : exists major minor ty w2,
    match nt with
    | Some nt0 => _gss_intern_oid nt0 w1
    | None => (GSS_S_COMPLETE, 0, None, w1)
    end = (major, minor, ty, w2) /\
    ((major = GSS_S_COMPLETE /\ ty = nt) \/ major = GSS_S_FAILURE)).
  { destruct nt as [nt0|].
    - unfold _gss_intern_oid. destruct (alloc res_type w1) as [[|] w2].
      + do 4 eexists. split; [reflexivity|]. left. auto.
      + do 4 eexists. split; [reflexivity|]. right. reflexivity.
    - do 4 eexists. split; [reflexivity|]. left. auto. }
  destruct Hty as (major & minor & ty & w2 & Ety & Hcase). rewrite Ety.
  destruct Hcase as [[-> ->] | ->].
  2:{ change (negb (GSS_S_FAILURE =? 0)) with true. cbv iota.
      intros E. injection E as <-. apply Hfail; [left|]; reflexivity. }
  change (negb (GSS_S_COMPLETE =? 0)) with false. cbv iota.
  unfold _gss_copy_buffer.
  destruct (alloc res_value w2) as [[|] w3].
  2:{ change (negb (GSS_S_FAILURE =? 0)) with true. cbv iota.
      intros E. injection E as <-. apply Hfail; [left|]; reflexivity. }
  change (negb (GSS_S_COMPLETE =? 0)) with false. cbv iota.
  cbn [gn_value gn_mn].
  match goal with |- context [walk_mechs GM nt mechs ?n0 ?mi ?w0] =>
    pose proof (walk_mechs_keeps GM nt mechs n0 mi w0) as Hk;
    destruct (walk_mechs GM nt mechs n0 mi w0)
      as [name3 minor3 w4|major3 minor3 name3 w4|]
  end; cbn [walk_keeps gn_type gn_value gn_mn] in Hk.
  - destruct Hk as (Hty & Hv & more & Hmn).
    destruct (gn_mn name3) as [|mn mns] eqn:Emn.
    + intros E. injection E as <-. apply Hfail; [right|]; reflexivity.
    + intros E. injection E as <-. cbn [major_status output_name].
      split; [left; reflexivity|]. split; [split|].
      * intros _. discriminate.
      * intros _. reflexivity.
      * intros name E. injection E as <-.
        rewrite Emn. split; [discriminate|]. split; assumption.
  - destruct Hk as [-> ->].
    intros E. injection E as <-. apply Hfail; [left|]; reflexivity.
  - intros E. discriminate E.
Qed.

(** X8.  On the path for names that are not exported names, the call answers
    Complete, Failure or NameNotMN and nothing else -- no mechanism's own
    status comes back; it hands out a name exactly when it answers Complete;
    and a name handed out holds at least one mechanism name, the bytes of
    the caller's buffer and the caller's name type. *)
Theorem generic_path_answers mechs GM b nt w r :
  gss_oid_equal nt GSS_C_NT_EXPORT_NAME = false ->
  gss_oid_equal nt GSS_C_NT_COMPOSITE_EXPORT = false ->
  gss_import_name mechs GM (Some b) nt true w = Some r ->
  (major_status r = GSS_S_COMPLETE \/ major_status r = GSS_S_FAILURE \/
   major_status r = GSS_S_NAME_NOT_MN) /\
  (major_status r = GSS_S_COMPLETE <-> output_name r <> None) /\
  (forall name, output_name r = Some name ->
     gn_mn name <> [] /\ gn_value name = Some (value b) /\
     gn_type name = nt).
Proof.
  intros Hexp Hcomp. unfold gss_import_name. cbn [negb].
  rewrite Hexp, Hcomp. cbn [orb].
  exact (import_generic_outcome mechs GM b nt w r).
Qed.

Lemma generic_path_answers_witness :
  exists r,
    gss_import_name
      [switch_of krb5_mech; switch_of ntlm_mech; switch_of other_mech] 2
      (Some {| value := [102; 111; 111]; beyond := zeroes |})
      (Some user_name_type) true empty_world = Some r /\
    (major_status r = GSS_S_COMPLETE <-> output_name r <> None).
Proof.
  eexists. split.
  - vm_compute. reflexivity.
  - apply (generic_path_answers
             [switch_of krb5_mech; switch_of ntlm_mech; switch_of other_mech]
             2 {| value := [102; 111; 111]; beyond := zeroes |}
             (Some user_name_type) empty_world).
    + vm_compute. reflexivity.
    + vm_compute. reflexivity.
    + vm_compute. reflexivity.
Defined.

(** ** Which mechanisms the generic path calls *)

(** Lines 262-303 when no allocation fails and every mechanism the loop
    gets to has an import-name operation: the calls made, in order. *)
Lemma walk_mechs_calls GM nt v ty ms :
  forall name minor w,
    bytes_of name = v -> gn_type name = ty ->
    never_fails w ->
    (forall m, In m ms -> eligible GM nt m = true ->
               gm_import_name (gm_mech m) <> None) ->
    exists name' minor' w',
      walk_mechs GM nt ms name minor w = walked name' minor' w' /\
      calls w' =
        calls w ++ flat_map (asked v ty) (filter (eligible GM nt) ms).
Proof.
  induction ms as [|m ms IH]; intros name minor w Hv Hty Hw Hcap.
  - exists name, minor, w. cbn. rewrite app_nil_r. auto.
  - subst v ty.
    assert (Hcap' : forall m', In m' ms -> eligible GM nt m' = true ->
                               gm_import_name (gm_mech m') <> None)
      by (intros m' Hin; apply Hcap; right; exact Hin).
    specialize (Hcap m (or_introl eq_refl)).
    cbn [filter].
    destruct (eligible GM nt m) eqn:Hel.
    + rewrite (walk_mechs_try GM nt m ms name minor w Hel).
      destruct (alloc_never_fails res_mn w Hw) as (w1 & Ea & Hw1 & _ & Hc1).
      rewrite Ea.
      cbn [flat_map]. unfold asked at 1.
      destruct (gm_import_name (gm_mech m)) as [import|];
        [|exfalso; apply Hcap; reflexivity].
      destruct (import (bytes_of name) (gn_type name))
        as [[major minor2] gmn].
      destruct (major =? GSS_S_COMPLETE); cbn [negb].
      * match goal with |- context [walk_mechs GM nt ms ?n0 ?mi ?w0] =>
          destruct (IH n0 mi w0 eq_refl eq_refl
                      (never_fails_same_heap w1 w0 eq_refl Hw1) Hcap')
            as (name' & minor' & w' & E & Hc)
        end.
        exists name', minor', w'. split; [exact E|].
        rewrite Hc. cbn [mech_gives called calls]. rewrite Hc1.
        rewrite <- app_assoc. reflexivity.
      * match goal with |- context [walk_mechs GM nt ms ?n0 ?mi ?w0] =>
          destruct (IH n0 mi w0 eq_refl eq_refl
                      (never_fails_same_heap w1 w0 eq_refl Hw1) Hcap')
            as (name' & minor' & w' & E & Hc)
        end.
        exists name', minor', w'. split; [exact E|].
        rewrite Hc. cbn [free _gss_mg_error called calls]. rewrite Hc1.
        rewrite <- !app_assoc. reflexivity.
    + destruct (walk_mechs_skip GM nt m ms name minor w Hel) as [minor1 ->].
      apply (IH name minor1 w eq_refl eq_refl Hw Hcap').
Qed.

(** Lines 234-255 when no allocation fails: the name the loop starts from
    holds the caller's bytes and name type and no mechanism name; no call
    has been made. *)
Lemma prologue_runs mechs GM b nt w :
  never_fails w ->
  exists w3,
    never_fails w3 /\ calls w3 = calls w /\
    import_generic mechs GM b nt w =
      after_walk (walk_mechs GM nt mechs
                    {| gn_type := nt; gn_value := Some (value b);
                       gn_mn := [] |} 0 w3).
Proof.
  intros Hw. unfold import_generic, _gss_create_name.
  destruct (alloc_never_fails res_name w Hw) as (w1 & E1 & Hw1 & _ & Hc1).
  rewrite E1.
  assert (Hty : exists w2,
    never_fails w2 /\ calls w2 = calls w /\
    match nt with
    | Some nt0 => _gss_intern_oid nt0 w1
    | None => (GSS_S_COMPLETE, 0, None, w1)
    end = (GSS_S_COMPLETE, 0, nt, w2)).
  { destruct nt as [nt0|].
    - unfold _gss_intern_oid.
      destruct (alloc_never_fails res_type w1 Hw1) as (w2 & E2 & Hw2 & _ & Hc2).
      rewrite E2. exists w2. rewrite Hc2, Hc1. auto.
    - exists w1. auto. }
  destruct Hty as (w2 & Hw2 & Hc2 & Ety). rewrite Ety.
  change (negb (GSS_S_COMPLETE =? 0)) with false. cbv iota.
  unfold _gss_copy_buffer.
  destruct (alloc_never_fails res_value w2 Hw2) as (w3 & E3 & Hw3 & _ & Hc3).
  rewrite E3. change (negb (GSS_S_COMPLETE =? 0)) with false. cbv iota.
  cbn [gn_mn gn_value].
  exists w3. split; [exact Hw3|]. split; [rewrite Hc3; exact Hc2|].
  destruct (walk_mechs GM nt mechs _ 0 w3) as [name3 minor3 w4| |];
    reflexivity.
Qed.

Lemma release_without_mechanism_names name w :
  gn_mn name = [] -> calls (gss_release_name name w) = calls w.
Proof.
  intros E. unfold gss_release_name. rewrite E.
  cbn [release_mechanism_names].
  destruct (gn_value name), (gn_type name); reflexivity.
Qed.

Lemma generic_calls_core mechs GM b nt w :
  never_fails w ->
  (forall m, In m mechs -> eligible GM nt m = true ->
             gm_import_name (gm_mech m) <> None) ->
  exists r,
    import_generic mechs GM b nt w = Some r /\
    calls (after r) =
      calls w ++ flat_map (asked (value b) nt) (filter (eligible GM nt) mechs).
Proof.
  intros Hw Hcap.
  destruct (prologue_runs mechs GM b nt w Hw) as (w3 & Hw3 & Hc3 & ->).
  destruct (walk_mechs_calls GM nt (value b) nt mechs
              {| gn_type := nt; gn_value := Some (value b); gn_mn := [] |}
              0 w3 eq_refl eq_refl Hw3 Hcap)
    as (name' & minor' & w' & -> & Hc).
  cbn [after_walk]. rewrite Hc3 in Hc.
  destruct (gn_mn name') as [|mn mns] eqn:Emn.
  - eexists. split; [reflexivity|]. cbn [out after].
    rewrite (release_without_mechanism_names name' w' Emn). exact Hc.
  - eexists. split; [reflexivity|]. exact Hc.
Qed.

(** X9.  On the path for names that are not exported names, when no allocation
    fails and every eligible mechanism has an import-name operation: each
    eligible mechanism is asked exactly once, in registration order, with
    the caller's bytes and name type; each one that does not answer Complete
    is reported to the error reporter right after; and a mechanism that is
    not eligible is never called. *)
Theorem generic_path_asks_each_eligible_mechanism_once mechs GM b nt w :
  gss_oid_equal nt GSS_C_NT_EXPORT_NAME = false ->
  gss_oid_equal nt GSS_C_NT_COMPOSITE_EXPORT = false ->
  never_fails w ->
  (forall m, In m mechs -> eligible GM nt m = true ->
             gm_import_name (gm_mech m) <> None) ->
  exists r,
    gss_import_name mechs GM (Some b) nt true w = Some r /\
    calls (after r) =
      calls w ++ flat_map (asked (value b) nt) (filter (eligible GM nt) mechs).
Proof.
  intros Hexp Hcomp. unfold gss_import_name. cbn [negb].
  rewrite Hexp, Hcomp. cbn [orb].
  exact (generic_calls_core mechs GM b nt w).
Qed.

Lemma generic_path_asks_each_eligible_mechanism_once_witness :
  exists r,
    gss_import_name
      [switch_of krb5_mech; switch_of ntlm_mech; switch_of other_mech] 2
      (Some {| value := [102; 111; 111]; beyond := zeroes |})
      (Some user_name_type) true empty_world = Some r /\
    calls (after r) =
      [import_name_call krb5_oid [102; 111; 111] (Some user_name_type);
       import_name_call ntlm_oid [102; 111; 111] (Some user_name_type);
       mg_error_call ntlm_oid 3;
       import_name_call other_oid [102; 111; 111] (Some user_name_type)].
Proof.
  apply (generic_path_asks_each_eligible_mechanism_once
           [switch_of krb5_mech; switch_of ntlm_mech; switch_of other_mech] 2
           {| value := [102; 111; 111]; beyond := zeroes |}
           (Some user_name_type) empty_world).
  - vm_compute. reflexivity.
  - vm_compute. reflexivity.
  - apply Forall_nil.
  - intros m [<-|[<-|[<-|[]]]] _; discriminate.
Defined.

(** X10.  The loop calls [gm_import_name] at line 283 without the null test that
    line 144 makes on the exported-name path: when no allocation fails, the
    mechanisms before [m] can import, and [m] is eligible but has no
    import-name operation, the run calls through a null pointer. *)
Theorem generic_path_calls_a_null_import mechs1 m mechs2 GM b nt w :
  gss_oid_equal nt GSS_C_NT_EXPORT_NAME = false ->
  gss_oid_equal nt GSS_C_NT_COMPOSITE_EXPORT = false ->
  never_fails w ->
  (forall m', In m' mechs1 -> eligible GM nt m' = true ->
              gm_import_name (gm_mech m') <> None) ->
  eligible GM nt m = true ->
  gm_import_name (gm_mech m) = None ->
  gss_import_name (mechs1 ++ m :: mechs2) GM (Some b) nt true w = None.
Proof.
  intros Hexp Hcomp Hw Hcap Hel Hnull.
  unfold gss_import_name. cbn [negb]. rewrite Hexp, Hcomp. cbn [orb].
  destruct (prologue_runs (mechs1 ++ m :: mechs2) GM b nt w Hw)
    as (w3 & Hw3 & _ & ->).
  rewrite walk_mechs_app.
  destruct (walk_mechs_walks GM nt (value b) nt mechs1
              {| gn_type := nt; gn_value := Some (value b); gn_mn := [] |}
              0 w3 eq_refl eq_refl Hw3 Hcap)
    as (minor' & w' & -> & Hw' & _).
  rewrite (walk_mechs_try GM nt m mechs2 _ minor' w' Hel).
  destruct (alloc_never_fails res_mn w' Hw') as (w1 & -> & _).
  rewrite Hnull. reflexivity.
Qed.

Lemma generic_path_calls_a_null_import_witness :
  gss_import_name ([switch_of krb5_mech] ++ switch_of mute_mech :: []) 2
    (Some {| value := [102; 111; 111]; beyond := zeroes |})
    (Some user_name_type) true empty_world = None.
Proof.
  apply (generic_path_calls_a_null_import
           [switch_of krb5_mech] (switch_of mute_mech) [] 2
           {| value := [102; 111; 111]; beyond := zeroes |}
           (Some user_name_type) empty_world).
  - vm_compute. reflexivity.
  - vm_compute. reflexivity.
  - apply Forall_nil.
  - intros m' [<-|[]] _. discriminate.
  - vm_compute. reflexivity.
  - reflexivity.
Defined.

(** ** The whole entry point *)

Lemma exported_outcome mechs b nt w :
  major_status (_gss_import_export_name mechs b nt w) = GSS_S_COMPLETE
  <-> output_name (_gss_import_export_name mechs b nt w) <> None.
Proof.
  unfold _gss_import_export_name.
  destruct (run_parser b) as [s [k|st]] eqn:Erun.
  2:{ rewrite (returns_only_parse_export_name b (entry b) s st Erun).
      cbn [major_status output_name]. split.
      - intros E. discriminate E.
      - intros Hne. contradiction. }
  unfold import_parsed.
  assert (Hbad : GSS_S_BAD_MECH = GSS_S_COMPLETE <-> @None _gss_name <> None)
    by (split; [intros E; discriminate E | intros Hne; contradiction]).
  destruct (__gss_get_mechanism mechs (mech_oid_of b k)) as [m|];
    [|exact Hbad].
  destruct (gm_import_name m) as [import|]; [|exact Hbad].
  destruct (import (value b) nt) as [[major minor] n].
  destruct (Z.eqb_spec major GSS_S_COMPLETE) as [->|Hne]; cbn [negb].
  - destruct (_gss_create_name _ _) as [[name|] w3];
      cbn [major_status output_name]; split.
    + intros _. discriminate.
    + intros _. reflexivity.
    + intros E. discriminate E.
    + intros Hne. contradiction.
  - cbn [major_status output_name]. split.
    + intros E. contradiction.
    + intros Hn. contradiction.
Qed.

(** X11.  Whatever the arguments, the registry and the allocator: a call that
    returns has stored a name through [output_name] exactly when its status
    is Complete. *)
Theorem name_is_handed_out_exactly_on_complete
    mechs GM input_name_buffer nt has_output_name w r :
  gss_import_name mechs GM input_name_buffer nt has_output_name w = Some r ->
  (major_status r = GSS_S_COMPLETE <-> output_name r <> None).
Proof.
  unfold gss_import_name.
  assert (Harg : forall st : OM_uint32,
            st = GSS_S_CALL_INACCESSIBLE_READ \/
            st = GSS_S_CALL_INACCESSIBLE_WRITE ->
            st = GSS_S_COMPLETE <-> @None _gss_name <> None).
  { intros st [-> | ->]; (split; [intros E; discriminate E
                                 | intros Hne; contradiction]). }
  destruct input_name_buffer as [b|].
  2:{ intros E. injection E as <-. apply Harg. left. reflexivity. }
  destruct has_output_name; cbn [negb].
  2:{ intros E. injection E as <-. apply Harg. right. reflexivity. }
  destruct (gss_oid_equal nt GSS_C_NT_EXPORT_NAME
            || gss_oid_equal nt GSS_C_NT_COMPOSITE_EXPORT).
  - intros E. injection E as <-. apply exported_outcome.
  - intros E. exact (proj1 (proj2 (import_generic_outcome mechs GM b nt w r E))).
Qed.

Lemma name_is_handed_out_exactly_on_complete_witness :
  exists r,
    gss_import_name [switch_of krb5_mech] 2
      (Some {| value := krb5_token; beyond := zeroes |})
      GSS_C_NT_EXPORT_NAME true empty_world = Some r /\
    (major_status r = GSS_S_COMPLETE <-> output_name r <> None).
Proof.
  eexists. split.
  - vm_compute. reflexivity.
  - apply (name_is_handed_out_exactly_on_complete
             [switch_of krb5_mech] 2
             (Some {| value := krb5_token; beyond := zeroes |})
             GSS_C_NT_EXPORT_NAME true empty_world).
    vm_compute. reflexivity.
Defined.

(** ** The exported-name path, end to end *)

(** X12.  A token the parser does not accept, passed with one of the two
    exported-name types: the call answers BadName with minor status 0 and the
    null name, and the world is as it was -- nothing was allocated and no
    mechanism was called, whatever the registry holds. *)
Theorem rejected_token_touches_nothing mechs GM b nt w :
  gss_oid_equal nt GSS_C_NT_EXPORT_NAME
  || gss_oid_equal nt GSS_C_NT_COMPOSITE_EXPORT = true ->
  (forall k, snd (run_parser b) <> Val k) ->
  gss_import_name mechs GM (Some b) nt true w =
    Some {| major_status := GSS_S_BAD_NAME; minor_status := Some 0;
            output_name := None; after := w |}.
Proof.
  intros Hnt Hrej. unfold gss_import_name. cbn [negb]. rewrite Hnt.
  unfold _gss_import_export_name.
  destruct (run_parser b) as [s [k|st]] eqn:Erun.
  - exfalso. apply (Hrej k). reflexivity.
  - rewrite (returns_only_parse_export_name b (entry b) s st Erun).
    reflexivity.
Qed.

Lemma rejected_token_touches_nothing_witness :
  gss_import_name [switch_of krb5_mech] 2
    (Some {| value := [4; 1; 0]; beyond := zeroes |})
    GSS_C_NT_EXPORT_NAME true empty_world =
    Some {| major_status := GSS_S_BAD_NAME; minor_status := Some 0;
            output_name := None; after := empty_world |}.
Proof.
  apply (rejected_token_touches_nothing [switch_of krb5_mech] 2
           {| value := [4; 1; 0]; beyond := zeroes |}
           GSS_C_NT_EXPORT_NAME empty_world).
  - vm_compute. reflexivity.
  - intros k. vm_compute. discriminate.
Defined.

Lemma create_name_runs n m w :
  never_fails w ->
  exists w',
    _gss_create_name (Some (n, m)) w =
      (Some {| gn_type := None; gn_value := None;
               gn_mn := [{| gmn_mech := m; gmn_mech_oid := gm_mech_oid m;
                            gmn_name := n |}] |}, w') /\
    calls w' = calls w.
Proof.
  intros Hw. unfold _gss_create_name.
  destruct (alloc_never_fails res_name w Hw) as (w1 & -> & Hw1 & _ & Hc1).
  destruct (alloc_never_fails res_mn w1 Hw1) as (w2 & -> & _ & _ & Hc2).
  exists w2. split; [reflexivity|]. rewrite Hc2. exact Hc1.
Qed.

(** X13.  A plain token in the layout of RFC 2743 whose OID the registry knows,
    passed with one of the two exported-name types, when the mechanism found
    can import, answers Complete and no allocation fails: the call answers
    Complete with minor status 0; the one call made is that mechanism's
    import, on the whole token; and the name handed out holds exactly one
    mechanism name, the mechanism's. *)
Theorem exported_name_is_imported_by_its_mechanism
    mechs GM oid name junk nt w m import minor n :
  gss_oid_equal nt GSS_C_NT_EXPORT_NAME
  || gss_oid_equal nt GSS_C_NT_COMPOSITE_EXPORT = true ->
  (List.length oid < 128)%nat ->
  Z.of_nat (List.length name) < 2 ^ 31 ->
  Forall is_byte oid -> Forall is_byte name ->
  __gss_get_mechanism mechs oid = Some m ->
  gm_import_name m = Some import ->
  import (plain_token oid name) nt = (GSS_S_COMPLETE, minor, n) ->
  never_fails w ->
  exists r gn,
    gss_import_name mechs GM
      (Some {| value := plain_token oid name; beyond := junk |}) nt true w
      = Some r /\
    major_status r = GSS_S_COMPLETE /\ minor_status r = Some 0 /\
    output_name r = Some gn /\
    gn_mn gn = [{| gmn_mech := m; gmn_mech_oid := gm_mech_oid m;
                   gmn_name := n |}] /\
    calls (after r) =
      calls w ++ [import_name_call (gm_mech_oid m) (plain_token oid name) nt].
Proof.
  intros Hnt Hoid Hname Hbo Hbn Hget Himp Hans Hw.
  destruct (plain_token_core oid name junk Hoid Hname Hbo Hbn)
    as (s & k & Erun & _ & Hk & _).
  unfold gss_import_name. cbn [negb]. rewrite Hnt.
  unfold _gss_import_export_name. rewrite Erun.
  unfold import_parsed. rewrite Hk, Hget, Himp. cbn [value]. rewrite Hans.
  change (negb (GSS_S_COMPLETE =? GSS_S_COMPLETE)) with false. cbv iota.
  match goal with |- context [_gss_create_name _ ?w2] =>
    destruct (create_name_runs n m w2
                (never_fails_same_heap w w2 eq_refl Hw)) as (w' & -> & Hc)
  end.
  eexists. eexists. split; [reflexivity|].
  cbn [major_status minor_status output_name after gn_mn].
  repeat (split; [reflexivity|]). exact Hc.
Qed.

Lemma exported_name_is_imported_by_its_mechanism_witness :
  exists r gn,
    gss_import_name [switch_of ntlm_mech; switch_of krb5_mech] 2
      (Some {| value := plain_token krb5_oid [102; 111; 111];
               beyond := zeroes |}) GSS_C_NT_EXPORT_NAME true empty_world
      = Some r /\
    major_status r = GSS_S_COMPLETE /\ minor_status r = Some 0 /\
    output_name r = Some gn /\
    gn_mn gn = [{| gmn_mech := krb5_mech; gmn_mech_oid := krb5_oid;
                   gmn_name := 7 |}] /\
    calls (after r) =
      calls empty_world ++
      [import_name_call krb5_oid (plain_token krb5_oid [102; 111; 111])
         GSS_C_NT_EXPORT_NAME].
Proof.
  apply (exported_name_is_imported_by_its_mechanism
           [switch_of ntlm_mech; switch_of krb5_mech] 2
           krb5_oid [102; 111; 111] zeroes GSS_C_NT_EXPORT_NAME empty_world
           krb5_mech (fun _ _ => (GSS_S_COMPLETE, 0, 7)) 0 7).
  - vm_compute. reflexivity.
  - vm_compute. lia.
  - vm_compute. reflexivity.
  - repeat constructor; unfold is_byte; lia.
  - repeat constructor; unfold is_byte; lia.
  - vm_compute. reflexivity.
  - reflexivity.
  - reflexivity.
  - apply Forall_nil.
Defined.

(** X14.  A plain token in the layout of RFC 2743 whose OID the registry knows,
    passed with one of the two exported-name types, when the mechanism found
    can import and does not answer Complete: the call returns the
    mechanism's major and minor status unchanged and the null name; the two
    calls made are the import, on the whole token, and the report of the
    minor status to the error reporter; nothing was allocated. *)
Theorem exported_name_failure_is_the_mechanisms
    mechs GM oid name junk nt w m import major minor n :
  gss_oid_equal nt GSS_C_NT_EXPORT_NAME
  || gss_oid_equal nt GSS_C_NT_COMPOSITE_EXPORT = true ->
  (List.length oid < 128)%nat ->
  Z.of_nat (List.length name) < 2 ^ 31 ->
  Forall is_byte oid -> Forall is_byte name ->
  __gss_get_mechanism mechs oid = Some m ->
  gm_import_name m = Some import ->
  import (plain_token oid name) nt = (major, minor, n) ->
  major <> GSS_S_COMPLETE ->
  gss_import_name mechs GM
    (Some {| value := plain_token oid name; beyond := junk |}) nt true w
  = Some {| major_status := major; minor_status := Some minor;
            output_name := None;
            after := {| heap := heap w; live := live w;
                        calls := calls w ++
                          [import_name_call (gm_mech_oid m)
                             (plain_token oid name) nt;
                           mg_error_call (gm_mech_oid m) minor] |} |}.
Proof.
  intros Hnt Hoid Hname Hbo Hbn Hget Himp Hans Hne.
  destruct (plain_token_core oid name junk Hoid Hname Hbo Hbn)
    as (s & k & Erun & _ & Hk & _).
  unfold gss_import_name. cbn [negb]. rewrite Hnt.
  unfold _gss_import_export_name. rewrite Erun.
  unfold import_parsed. rewrite Hk, Hget, Himp. cbn [value]. rewrite Hans.
  replace (major =? GSS_S_COMPLETE) with false
    by (symmetry; apply Z.eqb_neq; exact Hne).
  cbn [negb]. unfold _gss_mg_error, called. cbn [heap live calls].
  rewrite <- app_assoc. reflexivity.
Qed.

Lemma exported_name_failure_is_the_mechanisms_witness :
  gss_import_name [switch_of ntlm_mech] 2
    (Some {| value := plain_token ntlm_oid [102; 111; 111];
             beyond := zeroes |}) GSS_C_NT_EXPORT_NAME true empty_world
  = Some {| major_status := GSS_S_BAD_NAME; minor_status := Some 3;
            output_name := None;
            after := {| heap := []; live := [];
                        calls := [] ++
                          [import_name_call ntlm_oid
                             (plain_token ntlm_oid [102; 111; 111])
                             GSS_C_NT_EXPORT_NAME;
                           mg_error_call ntlm_oid 3] |} |}.
Proof.
  apply (exported_name_failure_is_the_mechanisms
           [switch_of ntlm_mech] 2 ntlm_oid [102; 111; 111] zeroes
           GSS_C_NT_EXPORT_NAME empty_world ntlm_mech
           (fun _ _ => (GSS_S_BAD_NAME, 3, 0)) GSS_S_BAD_NAME 3 0).
  - vm_compute. reflexivity.
  - vm_compute. lia.
  - vm_compute. reflexivity.
  - repeat constructor; unfold is_byte; lia.
  - repeat constructor; unfold is_byte; lia.
  - vm_compute. reflexivity.
  - reflexivity.
  - reflexivity.
  - vm_compute. discriminate.
Defined.
